(** * ImageWrap: a shallow embedding of [index.js]

    The class wraps the RGBA bytes of an [ImageData] and offers
    coordinate-addressed reads and writes, two channel-difference measures
    and two ring searches ([minGrad], [maxGrad]).

    Numbers.  Pixel coordinates, colours, byte values and dimensions are
    integer-valued JavaScript Numbers and are modelled by [Z]; the 32-bit
    wrap-around of [<<], [>>] and [&] is written out with [ToInt32].  The ring
    searches go through [Math.cos] and [Math.sin] and are modelled in IEEE
    binary64 ([float]), the format of a JavaScript Number. *)

From Stdlib Require Import ZArith Floats List Bool Lia String.
From stdpp Require Import base list.

Local Open Scope Z_scope.

(** ** Completions and exceptions *)

Inductive exn : Type :=
| Error (message : string)          (* [throw new Error(message)] in the file *)
| TypeError (message : string)      (* raised by the language: call of a non-function *)
| ReferenceError (name : string)    (* raised by the language: unresolvable identifier *)
| DOMException (name : string).     (* raised inside a platform collaborator *)

Inductive completion (A : Type) : Type :=
| Normal (a : A)
| Throw (e : exn).
Arguments Normal {A} a.
Arguments Throw {A} e.

(** Methods that assign fields of [this] and may throw: state and error. *)
Definition M (S A : Type) : Type := S -> completion A * S.

Definition ret {S A} (a : A) : M S A := fun s => (Normal a, s).
Definition throw {S A} (e : exn) : M S A := fun s => (Throw e, s).
Definition bind {S A B} (m : M S A) (k : A -> M S B) : M S B :=
  fun s => match m s with
           | (Normal a, s') => k a s'
           | (Throw e, s') => (Throw e, s')
           end.
Definition lift {S A} (c : completion A) : M S A := fun s => (c, s).

Notation "'let*' x ':=' m 'in' k" := (bind m (fun x => k))
  (at level 10, x name, m at level 100, k at level 200).

(** ** Integer-valued Numbers *)

(** The result of an arithmetic expression over array elements: an integer,
    or [NaN] once [undefined] has been added in. *)
Inductive number : Type :=
| Num (z : Z)
| NaN.

(** An array element read: [Some b], or [None] for [undefined]. *)
Definition ToNumber (v : option Z) : number :=
  match v with Some z => Num z | None => NaN end.

Definition ToInt32 (z : Z) : Z := (z + 2 ^ 31) mod 2 ^ 32 - 2 ^ 31.
Definition ToUint32 (z : Z) : Z := z mod 2 ^ 32.

(** [ToInt32(undefined)] is [0]. *)
Definition ToInt32_value (v : option Z) : Z :=
  match v with Some z => ToInt32 z | None => 0 end.

(** [v << n] *)
Definition shl (v : option Z) (n : Z) : Z :=
  ToInt32 (Z.shiftl (ToInt32_value v) n).
(** [c >> n] *)
Definition sar (c n : Z) : Z := Z.shiftr (ToInt32 c) n.
(** [a & b] *)
Definition band (a b : Z) : Z := Z.land (ToInt32 a) (ToInt32 b).

Definition add (a b : number) : number :=
  match a, b with
  | Num x, Num y => Num (x + y)
  | _, _ => NaN
  end.
Definition sub (a b : number) : number :=
  match a, b with
  | Num x, Num y => Num (x - y)
  | _, _ => NaN
  end.
Definition Math_abs (a : number) : number :=
  match a with Num x => Num (Z.abs x) | NaN => NaN end.

(** ** Uint8ClampedArray *)

(** [d[i]]: [undefined] outside the array. *)
Definition elem (d : list Z) (i : Z) : option Z :=
  if decide (0 <= i) then d !! Z.to_nat i else None.

Definition clamp8 (v : Z) : Z := Z.max 0 (Z.min 255 v).

(** [d[i] = v]: the stored value is clamped to a byte; a write outside the
    array is ignored. *)
Definition store (d : list Z) (i v : Z) : list Z :=
  if decide (0 <= i) then <[Z.to_nat i := clamp8 v]> d else d.

(** ** The object *)

(** Opaque reference to a platform object (an image, a canvas, ...). *)
Definition Handle : Type := positive.

(** A rectangle descriptor; an absent member reads [undefined]. *)
Record Rect : Type := {
  rect_x : option Z;
  rect_y : option Z;
  rect_width : option Z;
  rect_height : option Z
}.

Record ImageData : Type := {
  id_data : list Z;
  id_width : Z;
  id_height : Z
}.

(** The fields [fromData] assigns, and [_source].  [this._data] is the very
    array of [this._imageData]: it is kept once, inside [_imageData], and
    [_data] projects it. *)
Record ImageWrap : Type := {
  _source : option Handle;
  _rect : option Rect;
  _imageData : ImageData;
  _width : Z;
  _height : Z
}.

Definition _data (this : ImageWrap) : list Z := id_data (_imageData this).

(** [this._data[i] = v] *)
Definition store_data (this : ImageWrap) (i v : Z) : ImageWrap :=
  {| _source := _source this;
     _rect := _rect this;
     _imageData := {| id_data := store (_data this) i v;
                      id_width := id_width (_imageData this);
                      id_height := id_height (_imageData this) |};
     _width := _width this;
     _height := _height this |}.

(** Property accessors. *)
Definition source (this : ImageWrap) : option Handle := _source this.
Definition set_source (this : ImageWrap) (v : option Handle) : ImageWrap :=
  {| _source := v; _rect := _rect this; _imageData := _imageData this;
     _width := _width this; _height := _height this |}.
Definition rect (this : ImageWrap) : option Rect := _rect this.
Definition set_rect (this : ImageWrap) (v : option Rect) : ImageWrap :=
  {| _source := _source this; _rect := v; _imageData := _imageData this;
     _width := _width this; _height := _height this |}.
Definition data (this : ImageWrap) : list Z := _data this.
Definition imageData (this : ImageWrap) : ImageData := _imageData this.
Definition width (this : ImageWrap) : Z := _width this.
Definition set_width (this : ImageWrap) (v : Z) : ImageWrap :=
  {| _source := _source this; _rect := _rect this; _imageData := _imageData this;
     _width := v; _height := _height this |}.
Definition height (this : ImageWrap) : Z := _height this.
Definition set_height (this : ImageWrap) (v : Z) : ImageWrap :=
  {| _source := _source this; _rect := _rect this; _imageData := _imageData this;
     _width := _width this; _height := v |}.

(** ** The enclosing scope

    The class uses identifiers it does not declare; each resolves in the
    scope around the class, and reading one that nothing binds throws a
    [ReferenceError].  [fromCanvas] reads [canvas] and [red] reads [r]:
    [None] when nothing binds them.  The constructor tests [source] against
    [Image], [Canvas], [UInt8ClampedArray] and [ImageData], [fromArray] calls
    [new ImageData], and [fromImage] reads [document]: the flag of a name
    tells whether the scope binds it.  A scope that binds one of the four
    class names binds it to the platform class of the objects the
    constructor's doc comment names for it (image elements, canvas elements,
    clamped byte arrays, [ImageData] objects).  The platform itself defines
    [Image], [ImageData] and [document]; it defines neither [Canvas] nor
    [UInt8ClampedArray] (its names are [HTMLCanvasElement] and
    [Uint8ClampedArray]). *)
Class Globals : Type := {
  global_canvas : option Handle;
  global_r : option Z;
  global_Image : bool;
  global_Canvas : bool;
  global_UInt8ClampedArray : bool;
  global_ImageData : bool;
  global_document : bool
}.

(** ** Channel differences *)

(** [4( e )]: the call of the number [4]; the argument is evaluated, then
    the call throws. *)
Definition call_4 {A} (arg : Z) : completion A :=
  Throw (TypeError "4 is not a function").

Definition cbind {A B} (c : completion A) (k : A -> completion B) : completion B :=
  match c with Normal a => k a | Throw e => Throw e end.

Definition absDiff (this : ImageWrap) (x y color : Z) : completion number :=
  cbind (call_4 (y * _width this + x)) (fun ind =>
  Normal (add (add
    (Math_abs (sub (ToNumber (elem (_data this) ind)) (Num (band 0xff (sar color 16)))))
    (Math_abs (sub (ToNumber (elem (_data this) (ind + 1))) (Num (band 0xff (sar color 8))))))
    (Math_abs (sub (ToNumber (elem (_data this) (ind + 2))) (Num (band 0xff color)))))).

Definition diff (this : ImageWrap) (x y color : Z) : completion number :=
  cbind (call_4 (y * _width this + x)) (fun ind =>
  Normal (add (add
    (sub (ToNumber (elem (_data this) ind)) (Num (band 0xff (sar color 16))))
    (sub (ToNumber (elem (_data this) (ind + 1))) (Num (band 0xff (sar color 8)))))
    (sub (ToNumber (elem (_data this) (ind + 2))) (Num (band 0xff color))))).

(** ** Packed and per-channel access *)

Record rgb : Type := { r_ : option Z; g_ : option Z; b_ : option Z }.
Record rgba : Type := { r32 : option Z; g32 : option Z; b32 : option Z; a32 : option Z }.

Definition parts (this : ImageWrap) (x y : Z) : rgb :=
  let ind := 4 * (y * _width this + x) in
  {| r_ := elem (_data this) ind;
     g_ := elem (_data this) (ind + 1);
     b_ := elem (_data this) (ind + 2) |}.

Definition parts32 (this : ImageWrap) (x y : Z) : rgba :=
  let ind := 4 * (y * _width this + x) in
  {| r32 := elem (_data this) ind;
     g32 := elem (_data this) (ind + 1);
     b32 := elem (_data this) (ind + 2);
     a32 := elem (_data this) (ind + 3) |}.

Definition get (this : ImageWrap) (x y : Z) : number :=
  let ind := 4 * (y * _width this + x) in
  add (add (Num (shl (elem (_data this) ind) 16))
           (Num (shl (elem (_data this) (ind + 1)) 8)))
      (ToNumber (elem (_data this) (ind + 2))).

Definition get32 (this : ImageWrap) (x y : Z) : number :=
  let ind := 4 * (y * _width this + x) in
  add (add (add (Num (shl (elem (_data this) (ind + 3)) 24))
                (Num (shl (elem (_data this) ind) 16)))
           (Num (shl (elem (_data this) (ind + 1)) 8)))
      (ToNumber (elem (_data this) (ind + 2))).

Definition set (this : ImageWrap) (x y color : Z) : ImageWrap :=
  let ind := 4 * (y * _width this + x) in
  let this := store_data this ind (band 0xFF (sar color 16)) in
  let ind := ind + 1 in
  let this := store_data this ind (band 0xFF (sar color 8)) in
  let ind := ind + 1 in
  store_data this ind (band 0xFF color).

Definition set32 (this : ImageWrap) (x y color : Z) : ImageWrap :=
  let ind := 4 * (y * _width this + x) in
  let this := store_data this ind (band 0xFF (sar color 16)) in
  let ind := ind + 1 in
  let this := store_data this ind (band 0xFF (sar color 8)) in
  let ind := ind + 1 in
  let this := store_data this ind (band 0xFF color) in
  let ind := ind + 1 in
  store_data this ind (band 0xFF (sar color 24)).

(** [return this._data[ 4*( y*this._width + x )] = r;] -- an assignment whose
    right-hand side is the free identifier [r]. *)
Definition red `{Globals} (x y : Z) : M ImageWrap Z :=
  fun this =>
    match global_r with
    | None => (Throw (ReferenceError "r"), this)
    | Some r => (Normal r, store_data this (4 * (y * _width this + x)) r)
    end.

Definition green (this : ImageWrap) (x y : Z) : option Z :=
  elem (_data this) (4 * (y * _width this + x) + 1).
Definition blue (this : ImageWrap) (x y : Z) : option Z :=
  elem (_data this) (4 * (y * _width this + x) + 2).
Definition alpha (this : ImageWrap) (x y : Z) : option Z :=
  elem (_data this) (4 * (y * _width this + x) + 3).

Definition setRed (this : ImageWrap) (x y r : Z) : ImageWrap :=
  store_data this (4 * (y * _width this + x)) r.
Definition setGreen (this : ImageWrap) (x y g : Z) : ImageWrap :=
  store_data this (4 * (y * _width this + x) + 1) g.
Definition setBlue (this : ImageWrap) (x y b : Z) : ImageWrap :=
  store_data this (4 * (y * _width this + x) + 2) b.
Definition setAlpha (this : ImageWrap) (x y a : Z) : ImageWrap :=
  store_data this (4 * (y * _width this + x) + 3) a.

(** ** Construction *)

(** The object a caller passes as [source], by the platform class it is
    an instance of: an image element, a canvas element, a clamped byte
    array, an [ImageData], or an object of none of these classes.  Whether
    an [instanceof] test of the constructor can be evaluated at all depends
    on the scope ([Globals]), not on the object. *)
Inductive Source : Type :=
| IsImage (image : Handle)
| IsCanvas (canvas : Handle)
| IsArray (array : list Z)
| IsImageData (d : ImageData)
| Unrecognized (object : Handle).

(** The outcome of a call into the platform: a value, or a raised
    [DOMException] of the given name. *)
Inductive host_result (A : Type) : Type :=
| Returned (a : A)
| Raised (name : string).
Arguments Returned {A} a.
Arguments Raised {A} name.

Definition of_host {A} (h : host_result A) : completion A :=
  match h with
  | Returned a => Normal a
  | Raised name => Throw (DOMException name)
  end.

(** The drawing-surface collaborator.  [getImageData cv x y w h] stands for
    [cv.getContext('2d').getImageData(x, y, w, h)] and [drawImage cv image]
    for the one-argument [cv.getContext('2d').drawImage(image)]. *)
Class Dom : Type := {
  createElement_canvas : Handle;
  canvas_width : Handle -> Z;
  canvas_height : Handle -> Z;
  drawImage : Handle -> Handle -> host_result unit;
  getImageData : Handle -> Z -> Z -> Z -> Z -> host_result ImageData
}.

(** Truthiness of a member that is [undefined] or a Number. *)
Definition truthy (v : option Z) : bool :=
  match v with Some z => negb (z =? 0) | None => false end.

(** [v || d] *)
Definition or_else (v : option Z) (d : Z) : Z :=
  match v with Some z => if z =? 0 then d else z | None => d end.

(** The conversion of the Number [n / d] ([d] not zero) to an
    [unsigned long] argument: truncate, then reduce modulo [2^32].  For an
    array length [n] the binary64 quotient truncates to the same integer. *)
Definition unsigned_long (n d : Z) : Z := ToUint32 (Z.quot n d).

(** Modelled from the spec: the [ImageData] constructor, which the platform
    supplies and the repository does not contain.
    [new ImageData(data, sw[, sh])] keeps [data] as the pixel array, takes
    [sw] as the width and derives the height as [(length/4) / sw]; it raises
    when the length is not a non-zero multiple of four, when the pixel count
    is not a multiple of [sw], or when a given [sh] differs from the derived
    height.  [sw] and [sh] are the converted [unsigned long] arguments. *)
Definition new_ImageData (data : list Z) (sw : Z) (sh : option Z)
  : completion ImageData :=
  let length := Z.of_nat (length data) in
  if (length =? 0) || negb (length mod 4 =? 0)
  then Throw (DOMException "InvalidStateError")
  else
    let length := length / 4 in
    if (sw =? 0) || negb (length mod sw =? 0)
    then Throw (DOMException "IndexSizeError")
    else
      let height := length / sw in
      match sh with
      | Some sh =>
          if sh =? height
          then Normal {| id_data := data; id_width := sw; id_height := height |}
          else Throw (DOMException "IndexSizeError")
      | None => Normal {| id_data := data; id_width := sw; id_height := height |}
      end.

(** The object under construction: [None] while no field has been assigned.
    [fromData] is the only method that assigns the pixel fields, and it
    assigns them all. *)
Definition This : Type := option ImageWrap.

Definition fromData (source : ImageData) (rect : option Rect) : M This unit :=
  fun this =>
    (Normal tt,
     Some {| _source := match this with Some w => _source w | None => None end;
             _rect := rect;
             _imageData := source;
             _width := id_width source;
             _height := id_height source |}).

Section Surfaces.
Context `{Globals} `{Dom}.

(** The expression [new ImageData(data, sw[, sh])]: the identifier is
    resolved first. *)
Definition construct_ImageData (data : list Z) (sw : Z) (sh : option Z)
  : completion ImageData :=
  if global_ImageData then new_ImageData data sw sh
  else Throw (ReferenceError "ImageData").

Definition fromArray (source : list Z) (rect : option Rect) : M This unit :=
  match rect with
  | None => throw (Error "Size information required")
  | Some rect =>
      if truthy (rect_width rect) then
        if truthy (rect_height rect) then
          let* d := lift (construct_ImageData source
                            (unsigned_long (default 0 (rect_width rect)) 1)
                            (Some (unsigned_long (default 0 (rect_height rect)) 1))) in
          fromData d None
        else
          let* d := lift (construct_ImageData source
                            (unsigned_long (default 0 (rect_width rect)) 1)
                            None) in
          fromData d None
      else
        if negb (truthy (rect_height rect)) then
          throw (Error "Size information required")
        else
          let* d := lift (construct_ImageData source
                            (unsigned_long (Z.of_nat (length source))
                                           (4 * default 0 (rect_height rect)))
                            (Some (unsigned_long (default 0 (rect_height rect)) 1))) in
          fromData d None
  end.

(** [canvas] is not a parameter of [fromCanvas]: it is looked up outside. *)
Definition fromCanvas (source : Handle) (rect : option Rect) : M This unit :=
  match global_canvas with
  | None => throw (ReferenceError "canvas")
  | Some canvas =>
      match rect with
      | Some r =>
          let* d := lift (of_host (getImageData canvas
                            (or_else (rect_x r) 0)
                            (or_else (rect_y r) 0)
                            (or_else (rect_width r) (canvas_width source))
                            (or_else (rect_height r) (canvas_height source)))) in
          fromData d (Some r)
      | None =>
          let* d := lift (of_host (getImageData canvas 0 0
                            (canvas_width source) (canvas_height source))) in
          fromData d None
      end
  end.

(** The [canvas] that [fromImage] declares is local to it: [fromCanvas]
    does not see it. *)
Definition fromImage (source : Handle) (rect : option Rect) : M This unit :=
  if negb global_document then throw (ReferenceError "document")
  else
    let canvas := createElement_canvas in
    let* _u := lift (of_host (drawImage canvas source)) in
    fromCanvas canvas rect.

(** The chain of [instanceof] tests, in the order of the source: each test
    first resolves its class name, and a later test is reached only when
    the earlier ones have been evaluated and have failed. *)
Definition constructor (source : Source) (rect : option Rect) : M This unit :=
  if negb global_Image then throw (ReferenceError "Image")
  else match source with
  | IsImage image => fromImage image rect
  | _ =>
  if negb global_Canvas then throw (ReferenceError "Canvas")
  else match source with
  | IsCanvas canvas => fromCanvas canvas rect
  | _ =>
  if negb global_UInt8ClampedArray then throw (ReferenceError "UInt8ClampedArray")
  else match source with
  | IsArray array => fromArray array rect
  | _ =>
  if negb global_ImageData then throw (ReferenceError "ImageData")
  else match source with
  | IsImageData d => fromData d rect
  | _ => throw (Error "Unknown Image Source")
  end end end end.

(** [new ImageWrap(source, rect)]: the constructor runs on a fresh object. *)
Definition new_ImageWrap (source : Source) (rect : option Rect)
  : completion unit * This :=
  constructor source rect None.

End Surfaces.

(** ** Ring searches *)

(** [Math.cos] and [Math.sin] are implementation-approximated: the engine
    supplies them. *)
Class MathLib : Type := {
  Math_cos : float -> float;
  Math_sin : float -> float
}.

Definition Math_PI : float := 0x1.921fb54442d18p+1%float.
Definition Number_MAX_SAFE_INTEGER : float := 0x1.fffffffffffffp+52%float.

(** The binary64 value of an integer (exact below [2^53]). *)
Definition Z2F (z : Z) : float := SF2Prim (binary_normalize prec emax z 0 false).

(** An operand of float arithmetic read from the array: [undefined]
    converts to NaN. *)
Definition ToFloat (v : option Z) : float :=
  match v with Some z => Z2F z | None => nan end.

(** The returned object: a member is [None] when it holds [undefined]. *)
Record direction : Type := {
  dx : option float;
  dy : option float
}.

Section Gradients.
Context `{MathLib}.
Local Open Scope float_scope.

(** The [for] loop of [minGrad]; [None] when [fuel] iterations do not
    finish it. *)
Fixpoint minGrad_loop (fuel : nat) (this : ImageWrap) (x y : Z)
    (r g b radius dtheta theta minDel : float) (minDx minDy : option float)
  : option direction :=
  match fuel with
  | O => None
  | S fuel =>
      if 0 <? theta then
        let dx := Math_cos theta in
        let dy := Math_sin theta in
        let tx := Z2F x + abs (radius * dx) in
        let ty := Z2F y + abs (radius * dy) in
        if (tx <? 0) || (Z2F (_width this) <=? tx) then
          minGrad_loop fuel this x y r g b radius dtheta (theta - dtheta)
            minDel minDx minDy
        else if (ty <? 0) || (Z2F (_height this) <=? ty) then
          minGrad_loop fuel this x y r g b radius dtheta (theta - dtheta)
            minDel minDx minDy
        else
          let ind := (4 * (y * _width this + x))%Z in
          let del := abs (r - ToFloat (elem (_data this) ind))
                     + abs (g - ToFloat (elem (_data this) (ind + 1)%Z))
                     + abs (b - ToFloat (elem (_data this) (ind + 2)%Z)) in
          if del <? minDel then
            minGrad_loop fuel this x y r g b radius dtheta (theta - dtheta)
              del (Some dx) (Some dy)
          else
            minGrad_loop fuel this x y r g b radius dtheta (theta - dtheta)
              minDel minDx minDy
      else Some {| dx := minDx; dy := minDy |}
  end.

Definition minGrad (fuel : nat) (this : ImageWrap) (x y : Z)
    (color : option Z) (radius tests : float) : option direction :=
  let minDel := Number_MAX_SAFE_INTEGER in
  let '(r, g, b) :=
    match color with
    | None =>
        let ind := (4 * (y * _width this + x))%Z in
        (ToFloat (elem (_data this) ind),
         ToFloat (elem (_data this) (ind + 1)%Z),
         ToFloat (elem (_data this) (ind + 2)%Z))
    | Some color =>
        (Z2F (band 0xff (sar color 16)),
         Z2F (band 0xff (sar color 8)),
         Z2F (band 0xff color))
    end in
  let dtheta := 2 * Math_PI / tests in
  minGrad_loop fuel this x y r g b radius dtheta (2 * Math_PI) minDel None None.

Fixpoint maxGrad_loop (fuel : nat) (this : ImageWrap) (x y : Z)
    (r g b radius dtheta theta maxDel : float) (maxDx maxDy : option float)
  : option direction :=
  match fuel with
  | O => None
  | S fuel =>
      if 0 <? theta then
        let dx := Math_cos theta in
        let dy := Math_sin theta in
        let tx := Z2F x + abs (radius * dx) in
        let ty := Z2F y + abs (radius * dy) in
        if (tx <? 0) || (Z2F (_width this) <=? tx) then
          maxGrad_loop fuel this x y r g b radius dtheta (theta - dtheta)
            maxDel maxDx maxDy
        else if (ty <? 0) || (Z2F (_height this) <=? ty) then
          maxGrad_loop fuel this x y r g b radius dtheta (theta - dtheta)
            maxDel maxDx maxDy
        else
          let ind := (4 * (y * _width this + x))%Z in
          let del := abs (r - ToFloat (elem (_data this) ind))
                     + abs (g - ToFloat (elem (_data this) (ind + 1)%Z))
                     + abs (b - ToFloat (elem (_data this) (ind + 2)%Z)) in
          if maxDel <? del then
            maxGrad_loop fuel this x y r g b radius dtheta (theta - dtheta)
              del (Some dx) (Some dy)
          else
            maxGrad_loop fuel this x y r g b radius dtheta (theta - dtheta)
              maxDel maxDx maxDy
      else Some {| dx := maxDx; dy := maxDy |}
  end.

Definition maxGrad (fuel : nat) (this : ImageWrap) (x y : Z)
    (color : option Z) (radius tests : float) : option direction :=
  let maxDel := -1 in
  let '(r, g, b) :=
    match color with
    | None =>
        let ind := (4 * (y * _width this + x))%Z in
        (ToFloat (elem (_data this) ind),
         ToFloat (elem (_data this) (ind + 1)%Z),
         ToFloat (elem (_data this) (ind + 2)%Z))
    | Some color =>
        (Z2F (band 0xff (sar color 16)),
         Z2F (band 0xff (sar color 8)),
         Z2F (band 0xff color))
    end in
  let dtheta := 2 * Math_PI / tests in
  maxGrad_loop fuel this x y r g b radius dtheta (2 * Math_PI) maxDel None None.

End Gradients.

(** ** Well-formed buffers and in-range coordinates *)

Definition byte_range (b : Z) : Prop := 0 <= b <= 255.

Record wf (this : ImageWrap) : Prop := {
  wf_length : Z.of_nat (length (_data this)) = _width this * _height this * 4;
  wf_bytes : Forall byte_range (_data this)
}.

Definition in_range (this : ImageWrap) (x y : Z) : Prop :=
  0 <= x < _width this /\ 0 <= y < _height this.

(** ** Vocabulary for the ring searches *)

(** The angles at which the loop body runs, in iteration order; [None] when
    the loop is not over after [fuel] tests of its condition. *)
Fixpoint angles (fuel : nat) (theta dtheta : float) : option (list float) :=
  match fuel with
  | O => None
  | S fuel =>
      if (0 <? theta)%float
      then cons theta <$> angles fuel (theta - dtheta)%float dtheta
      else Some []
  end.

(** The coordinate the loop tests against the bounds at angle [theta]. *)
Definition candidate `{MathLib} (x y : Z) (radius theta : float) : float * float :=
  (Z2F x + abs (radius * Math_cos theta), Z2F y + abs (radius * Math_sin theta))%float.

(** The two [continue] tests. *)
Definition outside (this : ImageWrap) (t : float * float) : bool :=
  ((fst t <? 0) || (Z2F (_width this) <=? fst t)
   || ((snd t <? 0) || (Z2F (_height this) <=? snd t)))%float.

(** The coordinate the claim describes: centre plus signed offset. *)
Definition ring_point `{MathLib} (x y : Z) (radius theta : float) : float * float :=
  (Z2F x + radius * Math_cos theta, Z2F y + radius * Math_sin theta)%float.

(** The reference channels [r], [g], [b] the searches start from. *)
Definition reference (this : ImageWrap) (x y : Z) (color : option Z)
  : float * float * float :=
  match color with
  | None =>
      let ind := 4 * (y * _width this + x) in
      (ToFloat (elem (_data this) ind),
       ToFloat (elem (_data this) (ind + 1)),
       ToFloat (elem (_data this) (ind + 2)))
  | Some color =>
      (Z2F (band 0xff (sar color 16)),
       Z2F (band 0xff (sar color 8)),
       Z2F (band 0xff color))
  end.

(** The value the loop body gives [del]: the pixel read is the one at
    [(x, y)]. *)
Definition divergence (this : ImageWrap) (x y : Z) (ref : float * float * float)
  : float :=
  let '(r, g, b) := ref in
  let ind := 4 * (y * _width this + x) in
  (abs (r - ToFloat (elem (_data this) ind))
   + abs (g - ToFloat (elem (_data this) (ind + 1)))
   + abs (b - ToFloat (elem (_data this) (ind + 2))))%float.

(** The same sum over integers. *)
Definition channel_distance (r g b p q s : Z) : Z :=
  Z.abs (r - p) + Z.abs (g - q) + Z.abs (b - s).

(** The running extremum with its direction. *)
Definition extremum : Type := float * option float * option float.

Definition finish (st : extremum) : direction :=
  let '(_, ex, ey) := st in {| dx := ex; dy := ey |}.

Definition unset : direction := {| dx := None; dy := None |}.

Definition toward `{MathLib} (theta : float) : direction :=
  {| dx := Some (Math_cos theta); dy := Some (Math_sin theta) |}.

(** One pass of the loop body of [minGrad] and of [maxGrad]. *)
Definition min_step `{MathLib} (this : ImageWrap) (x y : Z) (radius del : float)
    (st : extremum) (theta : float) : extremum :=
  if outside this (candidate x y radius theta) then st
  else if (del <? fst (fst st))%float
       then (del, Some (Math_cos theta), Some (Math_sin theta))
       else st.

Definition max_step `{MathLib} (this : ImageWrap) (x y : Z) (radius del : float)
    (st : extremum) (theta : float) : extremum :=
  if outside this (candidate x y radius theta) then st
  else if (fst (fst st) <? del)%float
       then (del, Some (Math_cos theta), Some (Math_sin theta))
       else st.

(** The first angle of a list whose candidate is inside the buffer. *)
Definition first_inside `{MathLib} (this : ImageWrap) (x y : Z) (radius : float)
    (l : list float) : option float :=
  List.find (fun theta => negb (outside this (candidate x y radius theta))) l.

(** The primitive conversion of a small non-negative integer. *)
Definition prim (z : Z) : float := of_uint63 (Uint63.of_Z z).

(** The number of passes of a loop with [tests = n], checked for every
    integer [n] of a range by running the loop. *)
Definition passes_ok (n : Z) : bool :=
  match angles (Z.to_nat n + 2) (2 * Math_PI) (2 * Math_PI / prim n) with
  | Some l => (n <=? Z.of_nat (length l))%Z && (Z.of_nat (length l) <=? n + 1)%Z
  | None => false
  end.

(** A rectangle gives no size when it is missing or when both its [width]
    and its [height] are falsy ([undefined] or [0]). *)
Definition no_size (rect : option Rect) : Prop :=
  match rect with
  | None => True
  | Some r => truthy (rect_width r) = false /\ truthy (rect_height r) = false
  end.

(** ** State-changing members

    The members that write to the object once it is built, other than the
    [width] and [height] setters and the [from...] initialisers.  The
    remaining members only read. *)
Inductive operation : Type :=
| op_set (x y color : Z)
| op_set32 (x y color : Z)
| op_setRed (x y r : Z)
| op_setGreen (x y g : Z)
| op_setBlue (x y b : Z)
| op_setAlpha (x y a : Z)
| op_red (x y : Z)
| op_set_source (v : option Handle)
| op_set_rect (v : option Rect).

Definition perform `{Globals} (this : ImageWrap) (op : operation) : ImageWrap :=
  match op with
  | op_set x y color => set this x y color
  | op_set32 x y color => set32 this x y color
  | op_setRed x y r => setRed this x y r
  | op_setGreen x y g => setGreen this x y g
  | op_setBlue x y b => setBlue this x y b
  | op_setAlpha x y a => setAlpha this x y a
  | op_red x y => snd (red x y this)
  | op_set_source v => set_source this v
  | op_set_rect v => set_rect this v
  end.

(** ** Sample environments and buffers *)

(** A page that defines nothing of its own: the scope holds the platform's
    names only. *)
Definition bare_page : Globals :=
  {| global_canvas := None; global_r := None;
     global_Image := true; global_Canvas := false;
     global_UInt8ClampedArray := false; global_ImageData := true;
     global_document := true |}.

(** A page that has bound [Canvas] and [UInt8ClampedArray] to the
    platform's canvas and clamped-array classes; it binds neither [canvas]
    nor [r]. *)
Definition patched_page : Globals :=
  {| global_canvas := None; global_r := None;
     global_Image := true; global_Canvas := true;
     global_UInt8ClampedArray := true; global_ImageData := true;
     global_document := true |}.

(** A drawing surface with fresh 300x150 canvases: it rejects the
    one-argument [drawImage] and hands out transparent black pixels. *)
Definition blank_dom : Dom :=
  {| createElement_canvas := 1%positive;
     canvas_width := fun _ => 300;
     canvas_height := fun _ => 150;
     drawImage := fun _ _ => Raised "TypeError";
     getImageData := fun _ _ _ w h =>
       if (0 <? w) && (0 <? h)
       then Returned {| id_data := replicate (Z.to_nat (w * h * 4)) 0;
                        id_width := w; id_height := h |}
       else Raised "IndexSizeError" |}.

(** [Math.cos] and [Math.sin] at the four angles a search with
    [tests = 4] visits ([2*PI], [3*PI/2], [PI], [PI/2]), as binary64 engines
    return them; NaN elsewhere. *)
Definition quadrant_cos (theta : float) : float :=
  (if theta =? 2 * Math_PI then 1
   else if theta =? 2 * Math_PI - 2 * Math_PI / 4 then - 0x1.a79394c9e8a0ap-53
   else if theta =? Math_PI then - 1
   else if theta =? Math_PI / 2 then 0x1.1a62633145c07p-54
   else nan)%float.

Definition quadrant_sin (theta : float) : float :=
  (if theta =? 2 * Math_PI then - 0x1.1a62633145c07p-52
   else if theta =? 2 * Math_PI - 2 * Math_PI / 4 then - 1
   else if theta =? Math_PI then 0x1.1a62633145c07p-53
   else if theta =? Math_PI / 2 then 1
   else nan)%float.

Definition quadrant : MathLib :=
  {| Math_cos := quadrant_cos; Math_sin := quadrant_sin |}.

(** The object [fromData] leaves behind on a fresh [this]. *)
Definition wrap (d : ImageData) : ImageWrap :=
  {| _source := None; _rect := None; _imageData := d;
     _width := id_width d; _height := id_height d |}.

(** One pixel: r 10, g 20, b 30, a 40. *)
Definition one_pixel : ImageWrap :=
  wrap {| id_data := [10; 20; 30; 40]; id_width := 1; id_height := 1 |}.

Definition black : list Z := [0; 0; 0; 255].
Definition white : list Z := [255; 255; 255; 255].

(** 3x3, black everywhere. *)
Definition all_black : ImageWrap :=
  wrap {| id_data := black ++ black ++ black
                     ++ black ++ black ++ black
                     ++ black ++ black ++ black;
          id_width := 3; id_height := 3 |}.

(** 3x3, black but for the white pixel at (0, 1), left of the centre. *)
Definition left_white : ImageWrap :=
  wrap {| id_data := black ++ black ++ black
                     ++ white ++ black ++ black
                     ++ black ++ black ++ black;
          id_width := 3; id_height := 3 |}.

(** The four angles of a search with [tests = 4]. *)
Definition quarter_turns : list float :=
  let dtheta := (2 * Math_PI / 4)%float in
  [ 2 * Math_PI; 2 * Math_PI - dtheta; 2 * Math_PI - dtheta - dtheta;
    2 * Math_PI - dtheta - dtheta - dtheta ]%float.

Definition only_width (w : Z) : Rect :=
  {| rect_x := None; rect_y := None; rect_width := Some w; rect_height := None |}.
Definition only_height (h : Z) : Rect :=
  {| rect_x := None; rect_y := None; rect_width := None; rect_height := Some h |}.

(** The object with its pixel array replaced: what a sequence of
    [this._data[i] = v] leaves behind. *)
Definition with_data (this : ImageWrap) (d : list Z) : ImageWrap :=
  {| _source := _source this;
     _rect := _rect this;
     _imageData := {| id_data := d;
                      id_width := id_width (_imageData this);
                      id_height := id_height (_imageData this) |};
     _width := _width this;
     _height := _height this |}.

(** What a pass of the loop can leave in the running direction: nothing
    yet, or the direction of an in-bounds angle seen so far. *)
Definition sampled `{MathLib} (this : ImageWrap) (x y : Z) (radius : float)
    (seen : list float) (d : direction) : Prop :=
  d = unset
  \/ exists theta, In theta seen
       /\ outside this (candidate x y radius theta) = false
       /\ d = toward theta.


(** A patched page whose scope also binds [canvas] to a canvas element. *)
Definition page_with_canvas : Globals :=
  {| global_canvas := Some 1%positive; global_r := None;
     global_Image := true; global_Canvas := true;
     global_UInt8ClampedArray := true; global_ImageData := true;
     global_document := true |}.

(** Two states of the object with the same dimensions and array length. *)
Definition same_shape (this this' : ImageWrap) : Prop :=
  _width this' = _width this
  /\ _height this' = _height this
  /\ length (_data this') = length (_data this)
  /\ (Forall byte_range (_data this) -> Forall byte_range (_data this')).

(** ** Vocabulary for the rounding of binary64 operations *)

(** What [k] right shifts of the rounding procedure leave of the integer
    [m0]: the quotient by [2^k], the last bit shifted out (the round bit)
    and whether any lower bit was set (the sticky bit). *)
Definition shifted (m0 k : Z) (mrs : shr_record) : Prop :=
  shr_m mrs = m0 / 2 ^ k
  /\ (k = 0 -> shr_r mrs = false /\ shr_s mrs = false)
  /\ (1 <= k -> shr_r mrs = Z.odd (m0 / 2 ^ (k - 1))
                /\ shr_s mrs = negb (m0 mod 2 ^ (k - 1) =? 0)).

(** The value of the finite number with mantissa [m] and exponent [e], in
    units of [2^-1074], the smallest positive binary64 number. *)
Definition scaled (m : positive) (e : Z) : Z := Zpos m * 2 ^ (e + 1074).

(** The place of a positive finite binary64 number in the increasing
    enumeration of these numbers; [0] for any other value. *)
Definition rank (f : float) : Z :=
  match Prim2SF f with
  | S754_finite false m e => (e + 1074) * 2 ^ 53 + Zpos m
  | _ => 0
  end.

(** Positive, finite and below 8: the exponent of the mantissa is at most
    [-50]. *)
Definition below_8 (f : float) : bool :=
  match Prim2SF f with
  | S754_finite false _ e => e <=? -50
  | _ => false
  end.


(* ================================================================== *)
(** * Properties *)

Section Arrays.

Lemma elem_store_eq d i v :
  0 <= i < Z.of_nat (length d) -> elem (store d i v) i = Some (clamp8 v).
Proof.
  intros Hi. unfold elem, store.
  destruct (decide (0 <= i)) as [_|]; [|lia].
  apply list_lookup_insert_eq. lia.
Qed.

Lemma elem_store_ne d i j v :
  i <> j -> elem (store d i v) j = elem d j.
Proof.
  intros Hne. unfold elem, store.
  destruct (decide (0 <= j)) as [Hj|]; [|done].
  destruct (decide (0 <= i)) as [Hi|]; [|done].
  apply list_lookup_insert_ne. lia.
Qed.

Lemma length_store d i v : length (store d i v) = length d.
Proof. unfold store. destruct (decide _); [apply length_insert | done]. Qed.

Lemma clamp8_byte v : byte_range v -> clamp8 v = v.
Proof. unfold byte_range, clamp8. lia. Qed.

Lemma clamp8_range v : byte_range (clamp8 v).
Proof. unfold byte_range, clamp8. lia. Qed.

End Arrays.

Section Bits.

Lemma ToInt32_range z : - 2 ^ 31 <= ToInt32 z < 2 ^ 31.
Proof.
  unfold ToInt32. pose proof (Z.mod_pos_bound (z + 2 ^ 31) (2 ^ 32)). lia.
Qed.

Lemma ToInt32_small z : - 2 ^ 31 <= z < 2 ^ 31 -> ToInt32 z = z.
Proof. intros Hz. unfold ToInt32. rewrite Z.mod_small; lia. Qed.

Lemma land_255 z : Z.land 255 z = z mod 256.
Proof. rewrite Z.land_comm. change 255 with (Z.ones 8). now rewrite Z.land_ones. Qed.

(** [0xFF & (c >> n)] is byte [n/8] of the 32-bit pattern of [c]. *)
Lemma band_sar c n :
  0 <= n -> band 0xFF (sar c n) = (ToInt32 c / 2 ^ n) mod 256.
Proof.
  intros Hn. unfold band, sar.
  pose proof (ToInt32_range c) as Hc.
  rewrite (ToInt32_small 255) by lia.
  rewrite Z.shiftr_div_pow2 by done.
  assert (0 < 2 ^ n) by (apply Z.pow_pos_nonneg; lia).
  rewrite ToInt32_small; [apply land_255|].
  generalize dependent (2 ^ n). intros P HP.
  pose proof (Z.div_mod (ToInt32 c) P ltac:(lia)).
  pose proof (Z.mod_pos_bound (ToInt32 c) P HP). nia.
Qed.

Lemma band_low c : band 0xFF c = ToInt32 c mod 256.
Proof. unfold band. rewrite (ToInt32_small 255) by lia. apply land_255. Qed.

Lemma band_mask24 c : band c 0xFFFFFF = ToInt32 c mod 2 ^ 24.
Proof.
  unfold band. rewrite (ToInt32_small 0xFFFFFF) by lia.
  change 0xFFFFFF with (Z.ones 24). now rewrite Z.land_ones.
Qed.

Lemma byte_of_band c n : 0 <= n -> byte_range (band 0xFF (sar c n)).
Proof.
  intros Hn. rewrite band_sar by done. unfold byte_range.
  pose proof (Z.mod_pos_bound (ToInt32 c / 2 ^ n) 256). lia.
Qed.

Lemma byte_of_band_low c : byte_range (band 0xFF c).
Proof.
  rewrite band_low. unfold byte_range.
  pose proof (Z.mod_pos_bound (ToInt32 c) 256). lia.
Qed.

Lemma shl_byte b n :
  0 <= n -> byte_range b -> shl (Some b) n = ToInt32 (b * 2 ^ n).
Proof.
  intros Hn Hb. unfold shl, ToInt32_value, byte_range in *.
  rewrite (ToInt32_small b) by lia. now rewrite Z.shiftl_mul_pow2.
Qed.

(** Three bytes put back side by side give the low 24 bits. *)
Lemma pack24 c :
  ToInt32 (((c / 2 ^ 16) mod 256) * 2 ^ 16)
  + ToInt32 (((c / 2 ^ 8) mod 256) * 2 ^ 8) + c mod 256 = c mod 2 ^ 24.
Proof.
  assert (Hb : forall k, 0 <= (c / k) mod 256 < 256)
    by (intros k; apply Z.mod_pos_bound; lia).
  pose proof (Hb (2 ^ 16)); pose proof (Hb (2 ^ 8)).
  rewrite !ToInt32_small by lia.
  Z.div_mod_to_equations. lia.
Qed.

(** Four bytes give the signed 32-bit value back: the alpha byte moved to
    bits 24..31 is wrapped by [<<]. *)
Lemma pack32 c :
  - 2 ^ 31 <= c < 2 ^ 31 ->
  ToInt32 (((c / 2 ^ 24) mod 256) * 2 ^ 24)
  + ToInt32 (((c / 2 ^ 16) mod 256) * 2 ^ 16)
  + ToInt32 (((c / 2 ^ 8) mod 256) * 2 ^ 8) + c mod 256 = c.
Proof.
  intros Hc.
  assert (Hb : forall k, 0 <= (c / k) mod 256 < 256)
    by (intros k; apply Z.mod_pos_bound; lia).
  pose proof (Hb (2 ^ 24)); pose proof (Hb (2 ^ 16)); pose proof (Hb (2 ^ 8)).
  rewrite !(ToInt32_small (_ * 2 ^ 16)), !(ToInt32_small (_ * 2 ^ 8)) by lia.
  unfold ToInt32. Z.div_mod_to_equations. lia.
Qed.

End Bits.

Ltac elem_simpl :=
  repeat first
    [ rewrite elem_store_ne by lia
    | rewrite elem_store_eq by (rewrite ?length_store; lia) ].

Ltac expose_data this :=
  cbn [_width _height store_data _data _imageData id_data];
  fold (_data this).

Section Pixels.

Lemma index_bounds this x y :
  wf this -> in_range this x y ->
  0 <= 4 * (y * _width this + x)
  /\ 4 * (y * _width this + x) + 3 < Z.of_nat (length (_data this)).
Proof. intros [Hl _] [Hx Hy]. nia. Qed.

Lemma get_set this x y c :
  wf this -> in_range this x y ->
  get (set this x y c) x y = Num (band c 0xFFFFFF).
Proof.
  intros Hwf Hin. destruct (index_bounds this x y Hwf Hin) as [Hlo Hhi].
  unfold get, set. expose_data this.
  set (ind := 4 * (y * _width this + x)) in *.
  replace (ind + 1 + 1) with (ind + 2) by lia.
  elem_simpl.
  rewrite !clamp8_byte by auto using byte_of_band, byte_of_band_low with lia.
  rewrite !shl_byte by auto using byte_of_band with lia.
  cbn [ToNumber add]. f_equal.
  rewrite !band_sar, band_low, band_mask24 by lia.
  apply pack24.
Qed.

Lemma alpha_set this x y c :
  alpha (set this x y c) x y = alpha this x y.
Proof. unfold alpha, set. expose_data this. now elem_simpl. Qed.

Lemma get32_set32 this x y c :
  wf this -> in_range this x y ->
  get32 (set32 this x y c) x y = Num (ToInt32 c).
Proof.
  intros Hwf Hin. destruct (index_bounds this x y Hwf Hin) as [Hlo Hhi].
  unfold get32, set32. expose_data this.
  set (ind := 4 * (y * _width this + x)) in *.
  replace (ind + 1 + 1 + 1) with (ind + 3) by lia.
  replace (ind + 1 + 1) with (ind + 2) by lia.
  elem_simpl.
  rewrite !clamp8_byte by auto using byte_of_band, byte_of_band_low with lia.
  rewrite !shl_byte by auto using byte_of_band with lia.
  cbn [ToNumber add]. f_equal.
  rewrite !band_sar, band_low by lia.
  apply pack32, ToInt32_range.
Qed.

Lemma wf_one_pixel : wf one_pixel.
Proof.
  split; [reflexivity|].
  repeat constructor; unfold byte_range; lia.
Qed.

Lemma in_range_one_pixel : in_range one_pixel 0 0.
Proof. unfold in_range; cbn; lia. Qed.

End Pixels.

(** C2 (as amended): on an in-range pixel, [set] then [get] gives
    [c & 0xFFFFFF] and leaves the alpha byte alone; [set32] then [get32]
    gives [c] read as a signed 32-bit integer, which is [c] itself below
    [2^31] and [c - 2^32] for a 32-bit value whose alpha byte is [0x80] or
    more. *)
Theorem packed_roundtrip this x y c :
  wf this -> in_range this x y ->
  get (set this x y c) x y = Num (band c 0xFFFFFF)
  /\ alpha (set this x y c) x y = alpha this x y
  /\ get32 (set32 this x y c) x y = Num (ToInt32 c)
  /\ (0 <= c < 2 ^ 31 -> get32 (set32 this x y c) x y = Num c)
  /\ (2 ^ 31 <= c < 2 ^ 32 -> get32 (set32 this x y c) x y = Num (c - 2 ^ 32)).
Proof.
  intros Hwf Hin.
  repeat split; auto using get_set, alpha_set, get32_set32.
  - intros Hc. rewrite get32_set32 by done. f_equal. apply ToInt32_small. lia.
  - intros Hc. rewrite get32_set32 by done. f_equal.
    unfold ToInt32. replace (c + 2 ^ 31) with (c - 2 ^ 31 + 1 * 2 ^ 32) by lia.
    rewrite Z.mod_add, Z.mod_small; lia.
Qed.

Lemma packed_roundtrip_witness :
  wf one_pixel /\ in_range one_pixel 0 0
  /\ get (set one_pixel 0 0 0xFF112233) 0 0 = Num 0x112233
  /\ alpha (set one_pixel 0 0 0xFF112233) 0 0 = Some 40
  /\ get32 (set32 one_pixel 0 0 0xFF112233) 0 0 = Num (0xFF112233 - 2 ^ 32).
Proof.
  destruct (packed_roundtrip one_pixel 0 0 0xFF112233
              wf_one_pixel in_range_one_pixel) as (Hget & Halpha & _ & _ & Hhigh).
  split; [apply wf_one_pixel|]. split; [apply in_range_one_pixel|].
  split; [exact Hget|]. split; [exact Halpha|]. apply Hhigh. lia.
Defined.

(** C2 as stated fails: an opaque colour does not come back from
    [set32]/[get32] as the same Number. *)
Lemma packed_roundtrip_high_alpha :
  ~ (forall this x y c,
        wf this -> in_range this x y -> 0 <= c < 2 ^ 32 ->
        get32 (set32 this x y c) x y = Num c).
Proof.
  intros Hall.
  assert (H : get32 (set32 one_pixel 0 0 0xFF112233) 0 0 = Num 0xFF112233)
    by (apply Hall; [apply wf_one_pixel | apply in_range_one_pixel | lia]).
  vm_compute in H. discriminate H.
Qed.

(** C7: [absDiff] and [diff] never return: their index expression calls
    the number [4], which throws before any channel is read. *)
Theorem channel_differences_throw this x y color :
  absDiff this x y color = Throw (TypeError "4 is not a function")
  /\ diff this x y color = Throw (TypeError "4 is not a function").
Proof. split; reflexivity. Qed.

Section Channels.
Variable this : ImageWrap.
Variables x y v : Z.
Hypothesis Hwf : wf this.
Hypothesis Hin : in_range this x y.
Hypothesis Hv : byte_range v.

Let ind := 4 * (y * _width this + x).

Lemma green_setGreen : green (setGreen this x y v) x y = Some v.
Proof.
  destruct (index_bounds this x y Hwf Hin).
  unfold green, setGreen. expose_data this. elem_simpl.
  now rewrite clamp8_byte.
Qed.

Lemma blue_setBlue : blue (setBlue this x y v) x y = Some v.
Proof.
  destruct (index_bounds this x y Hwf Hin).
  unfold blue, setBlue. expose_data this. elem_simpl.
  now rewrite clamp8_byte.
Qed.

Lemma alpha_setAlpha : alpha (setAlpha this x y v) x y = Some v.
Proof.
  destruct (index_bounds this x y Hwf Hin).
  unfold alpha, setAlpha. expose_data this. elem_simpl.
  now rewrite clamp8_byte.
Qed.

(** The red setter does store the byte; it is the getter that fails. *)
Lemma setRed_stores : elem (_data (setRed this x y v)) ind = Some v.
Proof.
  destruct (index_bounds this x y Hwf Hin).
  unfold setRed. expose_data this. subst ind. elem_simpl.
  now rewrite clamp8_byte.
Qed.

(** A single-channel setter leaves every other byte of the array alone. *)
Lemma setters_touch_one_byte j :
  (j <> ind -> elem (_data (setRed this x y v)) j = elem (_data this) j)
  /\ (j <> ind + 1 -> elem (_data (setGreen this x y v)) j = elem (_data this) j)
  /\ (j <> ind + 2 -> elem (_data (setBlue this x y v)) j = elem (_data this) j)
  /\ (j <> ind + 3 -> elem (_data (setAlpha this x y v)) j = elem (_data this) j).
Proof.
  subst ind. unfold setRed, setGreen, setBlue, setAlpha.
  repeat split; intros Hj; expose_data this; now elem_simpl.
Qed.

End Channels.

(** C8: the red getter does not read the channel back.  Whatever byte
    [setRed] stored, [red] throws a [ReferenceError] when nothing binds [r],
    and otherwise returns the outer [r], which it also writes over the
    channel.  (The green, blue and alpha getters do read back:
    [green_setGreen], [blue_setBlue], [alpha_setAlpha].) *)
Theorem red_after_setRed `{Globals} this x y v :
  red x y (setRed this x y v) =
  match global_r with
  | None => (Throw (ReferenceError "r"), setRed this x y v)
  | Some r => (Normal r, setRed (setRed this x y v) x y r)
  end.
Proof. unfold red. destruct global_r; reflexivity. Qed.

Section Construction.
Context `{Globals} `{Dom}.

Lemma new_ImageData_throws data sw sh e :
  new_ImageData data sw sh = Throw e -> exists name, e = DOMException name.
Proof.
  unfold new_ImageData.
  repeat (case_match; try discriminate); intros [= <-]; eauto.
Qed.

Lemma construct_ImageData_throws data sw sh e :
  construct_ImageData data sw sh = Throw e ->
  exists name, e = DOMException name \/ e = ReferenceError name.
Proof.
  unfold construct_ImageData. destruct global_ImageData.
  - intros [name ->]%new_ImageData_throws. eauto.
  - intros [= <-]. eauto.
Qed.

(** A call into the platform followed by [fromData]: it fails only with
    the platform's own exception, before any field is assigned. *)
Lemma lift_fromData_fails (c : completion ImageData) rect e this :
  fst ((let* d := lift c in fromData d rect) this) = Throw e ->
  c = Throw e /\ snd ((let* d := lift c in fromData d rect) this) = this.
Proof. unfold bind, lift. destruct c; cbn; [discriminate|]. now intros [= ->]. Qed.

Lemma fromArray_fails source rect e this :
  fst (fromArray source rect this) = Throw e ->
  snd (fromArray source rect this) = this
  /\ ((e = Error "Size information required" /\ no_size rect)
      \/ (exists name, (e = DOMException name \/ e = ReferenceError name)
                       /\ ~ no_size rect)).
Proof.
  unfold fromArray, no_size.
  destruct rect as [r|]; [|cbn; intros [= <-]; tauto].
  destruct (truthy (rect_width r)) eqn:Hw, (truthy (rect_height r)) eqn:Hh;
    cbn [negb];
    try (intros He; apply lift_fromData_fails in He as [He ->];
         apply construct_ImageData_throws in He as [name He];
         split; [done|]; right; exists name; split; [done|];
         intros [? ?]; discriminate).
  cbn. intros [= <-]. tauto.
Qed.

Lemma fromArray_throws_size source rect this :
  no_size rect ->
  fromArray source rect this = (Throw (Error "Size information required"), this).
Proof.
  unfold fromArray, no_size. destruct rect as [r|]; [|done].
  now intros [-> ->].
Qed.

Lemma fromCanvas_fails source rect e this :
  fst (fromCanvas source rect this) = Throw e ->
  snd (fromCanvas source rect this) = this
  /\ (exists name, e = DOMException name \/ e = ReferenceError name).
Proof.
  unfold fromCanvas. destruct global_canvas as [canvas|].
  - destruct rect as [r|]; intros He;
      apply lift_fromData_fails in He as [He ->]; split; try done;
      unfold of_host in He; case_match; try discriminate;
      injection He as <-; eauto.
  - cbn. intros [= <-]. eauto.
Qed.

Lemma fromImage_fails source rect e this :
  fst (fromImage source rect this) = Throw e ->
  snd (fromImage source rect this) = this
  /\ (exists name, e = DOMException name \/ e = ReferenceError name).
Proof.
  unfold fromImage. destruct global_document; cbn [negb].
  - unfold bind at 1, lift at 1, of_host at 1.
    destruct (drawImage _ _) as [[]|name]; cbn -[fromCanvas].
    + apply fromCanvas_fails.
    + intros [= <-]. eauto.
  - cbn. intros [= <-]. eauto.
Qed.

(** Whatever the scope, a constructor that throws has assigned nothing. *)
Lemma constructor_fails_clean source rect e :
  fst (new_ImageWrap source rect) = Throw e ->
  snd (new_ImageWrap source rect) = None.
Proof.
  unfold new_ImageWrap, constructor.
  destruct global_Image; cbn [negb]; [|done].
  destruct source as [image|canvas|array|d|object];
    [by intros [? _]%fromImage_fails|..];
    (destruct global_Canvas; cbn [negb]; [|done]);
    [by intros [? _]%fromCanvas_fails|..];
    (destruct global_UInt8ClampedArray; cbn [negb]; [|done]);
    [by intros [? _]%fromArray_fails|..];
    (destruct global_ImageData; cbn [negb]; done).
Qed.

End Construction.

(** C5: in a scope that binds [Image] and not [Canvas] -- the scope of
    every page that defines only the platform's names -- the constructor
    throws [ReferenceError] at its second [instanceof] test for every source
    that is not an image, without assigning a field.  A raw array without
    size information does not reach [Error('Size information required')],
    and an object of no recognized kind does not reach
    [Error('Unknown Image Source')]. *)
Theorem constructor_reference_error `{Globals} `{Dom}
    (source : Source) (rect : option Rect) :
  global_Image = true -> global_Canvas = false ->
  (forall image, source <> IsImage image) ->
  new_ImageWrap source rect = (Throw (ReferenceError "Canvas"), None).
Proof.
  intros HI HC Hs. unfold new_ImageWrap, constructor. rewrite HI, HC.
  destruct source as [image|canvas|array|d|object]; try done.
  by destruct (Hs image).
Qed.

Lemma constructor_reference_error_witness :
  @new_ImageWrap bare_page blank_dom (IsArray (replicate 16 0)) None
  = (Throw (ReferenceError "Canvas"), None)
  /\ @new_ImageWrap bare_page blank_dom (Unrecognized 5%positive) None
     = (Throw (ReferenceError "Canvas"), None).
Proof.
  split; apply (@constructor_reference_error bare_page blank_dom); done.
Defined.

(** X18: in a scope that binds the four class names, the constructor
    throws [Error('Size information required')] exactly when [source] is a
    raw array and [rect] is missing or has neither a truthy [width] nor a
    truthy [height]; it throws [Error('Unknown Image Source')] exactly when
    [source] is of none of the four classes; and whenever it throws, no
    field of the new object has been assigned. *)
Theorem errors_when_names_bound `{Globals} `{Dom}
    (source : Source) (rect : option Rect) :
  global_Image = true -> global_Canvas = true ->
  global_UInt8ClampedArray = true -> global_ImageData = true ->
  (fst (new_ImageWrap source rect) = Throw (Error "Size information required")
   <-> exists array, source = IsArray array /\ no_size rect)
  /\ (fst (new_ImageWrap source rect) = Throw (Error "Unknown Image Source")
      <-> exists object, source = Unrecognized object)
  /\ (forall e, fst (new_ImageWrap source rect) = Throw e ->
                snd (new_ImageWrap source rect) = None).
Proof.
  intros HI HC HA HD.
  split; [|split; [|apply constructor_fails_clean]];
    unfold new_ImageWrap, constructor; rewrite HI, HC, HA, HD; cbn [negb];
    destruct source as [image|canvas|array|d|object]; split.
  - intros He. apply fromImage_fails in He as [_ [name [?|?]]]; discriminate.
  - intros [array [? _]]; discriminate.
  - intros He. apply fromCanvas_fails in He as [_ [name [?|?]]]; discriminate.
  - intros [array [? _]]; discriminate.
  - intros He. exists array. split; [done|].
    apply fromArray_fails in He as [_ [[_ Hno]|[name [[?|?] _]]]];
      [done | discriminate | discriminate].
  - intros [a [[= <-] Hr]]. now rewrite fromArray_throws_size.
  - cbn. discriminate.
  - intros [array [? _]]; discriminate.
  - cbn. discriminate.
  - intros [array [? _]]; discriminate.
  - intros He. apply fromImage_fails in He as [_ [name [?|?]]]; discriminate.
  - intros [o ?]; discriminate.
  - intros He. apply fromCanvas_fails in He as [_ [name [?|?]]]; discriminate.
  - intros [o ?]; discriminate.
  - intros He.
    apply fromArray_fails in He as [_ [[? _]|[name [[?|?] _]]]]; discriminate.
  - intros [o ?]; discriminate.
  - cbn. discriminate.
  - intros [o ?]; discriminate.
  - by exists object.
  - done.
Qed.

Lemma errors_when_names_bound_witness :
  fst (@new_ImageWrap patched_page blank_dom (IsArray (replicate 16 0)) None)
  = Throw (Error "Size information required")
  /\ fst (@new_ImageWrap patched_page blank_dom (Unrecognized 5%positive) None)
     = Throw (Error "Unknown Image Source").
Proof.
  split.
  - apply (proj1 (@errors_when_names_bound patched_page blank_dom
                    (IsArray (replicate 16 0)) None
                    eq_refl eq_refl eq_refl eq_refl)).
    by exists (replicate 16 0).
  - apply (proj1 (proj2 (@errors_when_names_bound patched_page blank_dom
                           (Unrecognized 5%positive) None
                           eq_refl eq_refl eq_refl eq_refl))).
    by exists 5%positive.
Defined.

Section Derivation.

Lemma unsigned_long_1 z : unsigned_long z 1 = ToUint32 z.
Proof. unfold unsigned_long. now rewrite Z.quot_1_r. Qed.

Lemma ToUint32_nonneg z : 0 <= ToUint32 z.
Proof. unfold ToUint32. pose proof (Z.mod_pos_bound z (2 ^ 32)). lia. Qed.

(** What a successful [new ImageData(data, sw[, sh])] guarantees. *)
Lemma new_ImageData_returns data sw sh d :
  0 <= sw ->
  new_ImageData data sw sh = Normal d ->
  id_data d = data /\ id_width d = sw
  /\ 0 < sw /\ 0 < id_height d
  /\ Z.of_nat (length data) / 4 = sw * id_height d
  /\ Z.of_nat (length data) = sw * id_height d * 4
  /\ (forall h, sh = Some h -> id_height d = h).
Proof.
  intros Hsw. unfold new_ImageData.
  destruct (_ || _) eqn:H4; [discriminate|].
  destruct ((sw =? 0) || _) eqn:Hw; [discriminate|].
  apply orb_false_elim in H4 as [Hlen Hmod4], Hw as [Hsw0 Hmodw].
  apply negb_false_iff in Hmod4, Hmodw.
  assert (Hd : id_data {| id_data := data; id_width := sw;
                          id_height := Z.of_nat (length data) / 4 / sw |} = data
               /\ sw = sw /\ 0 < sw
               /\ 0 < Z.of_nat (length data) / 4 / sw
               /\ Z.of_nat (length data) / 4 = sw * (Z.of_nat (length data) / 4 / sw)
               /\ Z.of_nat (length data) = sw * (Z.of_nat (length data) / 4 / sw) * 4).
  { assert (0 < sw) by lia.
    assert (Z.of_nat (length data) = 4 * (Z.of_nat (length data) / 4))
      by (apply Z.div_exact; lia).
    assert (Z.of_nat (length data) / 4 = sw * (Z.of_nat (length data) / 4 / sw))
      by (apply Z.div_exact; lia).
    repeat split; try lia. }
  destruct sh as [h|].
  - destruct (h =? _) eqn:Hh; [|discriminate].
    intros [= <-]. cbn. repeat split; try tauto.
    intros ? [= <-]. lia.
  - intros [= <-]. cbn. repeat split; try tauto. discriminate.
Qed.

End Derivation.

(** C6 (as amended): [fromArray], given a raw array and a rectangle with
    one dimension only, leaves the other dimension equal to
    [(length/4) / given]; where [ImageData] is bound, an array of length 16
    with [{width:2}] gets height 2 and an array of length 400 with
    [{height:10}] gets width 10; and a construction from a raw array that
    succeeds is the work of [fromArray]. *)
Theorem fromArray_derives_dimension `{Globals} `{Dom} :
  (forall (array : list Z) (r : Rect) (this : This) (img : ImageWrap),
      fromArray array (Some r) this = (Normal tt, Some img) ->
      let pixels := Z.of_nat (length array) / 4 in
      (truthy (rect_width r) = true -> truthy (rect_height r) = false ->
       _width img = ToUint32 (default 0 (rect_width r))
       /\ _height img = pixels / _width img)
      /\ (truthy (rect_width r) = false -> truthy (rect_height r) = true ->
          _height img = ToUint32 (default 0 (rect_height r))
          /\ _width img = pixels / _height img))
  /\ (global_ImageData = true ->
      height <$> snd (fromArray (replicate 16 0) (Some (only_width 2)) None)
      = Some 2
      /\ width <$> snd (fromArray (replicate 400 0) (Some (only_height 10)) None)
         = Some 10)
  /\ (forall (array : list Z) (rect : option Rect) (img : ImageWrap),
        new_ImageWrap (IsArray array) rect = (Normal tt, Some img) ->
        fromArray array rect None = (Normal tt, Some img)).
Proof.
  split; [|split].
  - intros array r this img Hnew pixels. subst pixels.
    unfold fromArray in Hnew.
    split; intros Hw Hh; rewrite Hw, Hh in Hnew; cbn [negb] in Hnew;
      unfold bind, lift, construct_ImageData in Hnew;
      (destruct global_ImageData; [|discriminate]);
      destruct (new_ImageData _ _ _) as [d|e] eqn:Hd; try discriminate;
      injection Hnew as <-; cbn [_width _height];
      rewrite ?unsigned_long_1 in Hd;
      apply new_ImageData_returns in Hd
        as (_ & Hwd & Hpos & Hhpos & Hpix & _ & Hsh);
      try apply ToUint32_nonneg.
    + rewrite Hwd. split; [done|].
      rewrite Hpix, Z.mul_comm, Z.div_mul; lia.
    + specialize (Hsh _ eq_refl). split; [done|].
      rewrite Hpix, Hwd, Z.div_mul; lia.
  - intros HD. unfold fromArray, construct_ImageData. rewrite HD.
    split; reflexivity.
  - intros array rect img. unfold new_ImageWrap, constructor.
    destruct global_Image, global_Canvas, global_UInt8ClampedArray;
      cbn [negb]; done.
Qed.

Lemma fromArray_derives_dimension_witness :
  let img := wrap {| id_data := replicate 16 0; id_width := 2; id_height := 2 |} in
  @fromArray patched_page (replicate 16 0) (Some (only_width 2)) None
  = (Normal tt, Some img)
  /\ _width img = ToUint32 2 /\ _height img = 16 / 4 / _width img.
Proof.
  intros img. split; [reflexivity|].
  apply (proj1 (@fromArray_derives_dimension patched_page blank_dom)
           (replicate 16 0) (only_width 2) None img);
    reflexivity.
Defined.

(** C6 as stated fails: length 16 with [{width:2}] gives height 2 where
    the construction succeeds, and in no scope and on no platform does it
    give height 1. *)
Lemma fromArray_width_2_height :
  height <$> snd (@new_ImageWrap patched_page blank_dom
                    (IsArray (replicate 16 0)) (Some (only_width 2)))
  = Some 2
  /\ ~ (exists (page : Globals) (dom : Dom),
          height <$> snd (@new_ImageWrap page dom
                            (IsArray (replicate 16 0)) (Some (only_width 2)))
          = Some 1).
Proof.
  split; [reflexivity|]. intros (page & dom & Hh).
  unfold new_ImageWrap, constructor, fromArray, construct_ImageData in Hh.
  destruct (@global_Image page), (@global_Canvas page),
    (@global_UInt8ClampedArray page), (@global_ImageData page);
    vm_compute in Hh; discriminate.
Qed.

Section Shape.
Context `{Globals}.

Lemma Forall_store d i v :
  Forall byte_range d -> Forall byte_range (store d i v).
Proof.
  intros Hd. unfold store. destruct (decide _); [|done].
  apply Forall_insert; [done | apply clamp8_range].
Qed.

Lemma store_data_shape this i v :
  _width (store_data this i v) = _width this
  /\ _height (store_data this i v) = _height this
  /\ length (_data (store_data this i v)) = length (_data this)
  /\ (Forall byte_range (_data this) ->
      Forall byte_range (_data (store_data this i v))).
Proof.
  expose_data this. rewrite length_store. auto using Forall_store.
Qed.

Lemma same_shape_refl this : same_shape this this.
Proof. unfold same_shape. auto. Qed.

Lemma same_shape_trans a b c :
  same_shape a b -> same_shape b c -> same_shape a c.
Proof. unfold same_shape. intros (?&?&?&?) (?&?&?&?). repeat split; try congruence; auto. Qed.

Lemma same_shape_store this i v : same_shape this (store_data this i v).
Proof. apply store_data_shape. Qed.

Lemma perform_shape this op : same_shape this (perform this op).
Proof.
  destruct op; cbn [perform];
    unfold set, set32, setRed, setGreen, setBlue, setAlpha, red;
    try destruct global_r; cbn [snd]; cbv zeta;
    repeat (eapply same_shape_trans; [|apply same_shape_store]);
    try apply same_shape_refl;
    unfold same_shape; cbn; tauto.
Qed.

Lemma foldl_perform_shape ops this : same_shape this (foldl perform this ops).
Proof.
  revert this. induction ops as [|op ops IH]; intros this; cbn.
  - apply same_shape_refl.
  - eapply same_shape_trans; [apply perform_shape | apply IH].
Qed.

End Shape.

(** C9 (as amended): no sequence of pixel writes ([set], [set32], the four
    channel setters, [red]) and [source]/[rect] assignments changes the
    width, the height or the length of the array, so
    [data.length = width*height*4] is kept by all of them; [fromData]
    replaces the array and both dimensions together, by those of the
    [ImageData] it is given. *)
Theorem shape_preserved `{Globals} (ops : list operation) (this : ImageWrap) :
  let this' := foldl perform this ops in
  _width this' = _width this
  /\ _height this' = _height this
  /\ length (_data this') = length (_data this)
  /\ (wf this -> wf this')
  /\ (forall d rect,
        exists w, snd (fromData d rect (Some this)) = Some w
                  /\ _width w = id_width d /\ _height w = id_height d
                  /\ _data w = id_data d).
Proof.
  destruct (foldl_perform_shape ops this) as (Hw & Hh & Hl & Hb).
  cbn zeta. split; [done|]. split; [done|]. split; [done|]. split.
  - intros [Hlen Hbytes]. split; [by rewrite Hl, Hw, Hh | by apply Hb].
  - intros d rect. by eexists.
Qed.

Lemma shape_preserved_witness :
  wf one_pixel
  /\ wf (foldl (@perform bare_page) one_pixel
           [op_set32 0 0 0x80FFFFFF; op_setAlpha 0 0 7; op_red 0 0]).
Proof.
  split; [apply wf_one_pixel|].
  apply (@shape_preserved bare_page), wf_one_pixel.
Defined.

(** C9 as stated fails: the [width] setter is an exposed operation, and it
    changes the width without resizing the array. *)
Lemma width_setter_breaks_shape :
  _width (set_width one_pixel 5) <> _width one_pixel
  /\ Z.of_nat (length (_data (set_width one_pixel 5)))
     <> _width (set_width one_pixel 5) * _height (set_width one_pixel 5) * 4.
Proof. split; vm_compute; discriminate. Qed.

Section Loops.
Context `{MathLib}.
Variable this : ImageWrap.
Variables x y : Z.
Variables r g b radius dtheta : float.

(** The loop of [minGrad] is the fold of [min_step] over [angles]. *)
Lemma minGrad_loop_fold fuel : forall theta minDel minDx minDy,
  minGrad_loop fuel this x y r g b radius dtheta theta minDel minDx minDy
  = (fun l => finish (fold_left
                        (min_step this x y radius (divergence this x y (r, g, b)))
                        l (minDel, minDx, minDy)))
      <$> angles fuel theta dtheta.
Proof.
  induction fuel as [|fuel IH]; intros theta minDel minDx minDy; [reflexivity|].
  cbn [minGrad_loop angles].
  destruct (PrimFloat.ltb 0 theta) eqn:Hpos; [|reflexivity].
  rewrite !IH. destruct (angles fuel _ dtheta) as [l|]; [|by repeat case_match].
  cbn [fmap option_fmap option_map fold_left].
  set (F := fold_left _ l).
  unfold min_step, outside, candidate, divergence. cbn [fst snd].
  set (cx := (_ <? 0)%float || (Z2F (_width this) <=? _)%float).
  set (cy := (_ <? 0)%float || (Z2F (_height this) <=? _)%float).
  destruct cx, cy; cbn [orb]; try reflexivity.
  by case_match.
Qed.

Lemma maxGrad_loop_fold fuel : forall theta maxDel maxDx maxDy,
  maxGrad_loop fuel this x y r g b radius dtheta theta maxDel maxDx maxDy
  = (fun l => finish (fold_left
                        (max_step this x y radius (divergence this x y (r, g, b)))
                        l (maxDel, maxDx, maxDy)))
      <$> angles fuel theta dtheta.
Proof.
  induction fuel as [|fuel IH]; intros theta maxDel maxDx maxDy; [reflexivity|].
  cbn [maxGrad_loop angles].
  destruct (PrimFloat.ltb 0 theta) eqn:Hpos; [|reflexivity].
  rewrite !IH. destruct (angles fuel _ dtheta) as [l|]; [|by repeat case_match].
  cbn [fmap option_fmap option_map fold_left].
  set (F := fold_left _ l).
  unfold max_step, outside, candidate, divergence. cbn [fst snd].
  set (cx := (_ <? 0)%float || (Z2F (_width this) <=? _)%float).
  set (cy := (_ <? 0)%float || (Z2F (_height this) <=? _)%float).
  destruct cx, cy; cbn [orb]; try reflexivity.
  by case_match.
Qed.

End Loops.

Section Order.
Local Open Scope float_scope.

(** No binary64 value is below itself (NaN compares false). *)
Lemma ltb_irrefl (d : float) : (d <? d) = false.
Proof.
  rewrite ltb_spec. unfold SFltb.
  destruct (Prim2SF d) as [s|s| |s m e]; cbn; try done.
  - by destruct s.
  - destruct s; rewrite Z.compare_refl;
      change (Pos.compare_cont Eq m m) with (m ?= m)%positive;
      by rewrite Pos.compare_refl.
Qed.

End Order.

Section Folds.
Context `{MathLib}.
Variable this : ImageWrap.
Variables x y : Z.
Variables radius del : float.
Local Open Scope float_scope.

Lemma min_fold_keeps l st :
  (del <? fst (fst st)) = false ->
  fold_left (min_step this x y radius del) l st = st.
Proof.
  intros Hge. induction l as [|theta l IH]; [done|].
  cbn [fold_left]. unfold min_step at 2. rewrite Hge.
  by destruct (outside _ _).
Qed.

Lemma max_fold_keeps l st :
  (fst (fst st) <? del) = false ->
  fold_left (max_step this x y radius del) l st = st.
Proof.
  intros Hge. induction l as [|theta l IH]; [done|].
  cbn [fold_left]. unfold max_step at 2. rewrite Hge.
  by destruct (outside _ _).
Qed.

Lemma min_fold_first l st :
  (del <? fst (fst st)) = true ->
  fold_left (min_step this x y radius del) l st
  = match first_inside this x y radius l with
    | Some theta => (del, Some (Math_cos theta), Some (Math_sin theta))
    | None => st
    end.
Proof.
  intros Hlt. induction l as [|theta l IH]; [done|].
  cbn [fold_left]. unfold first_inside in *. cbn [find].
  unfold min_step at 2. rewrite Hlt.
  destruct (outside _ _); cbn [negb]; [done|].
  apply min_fold_keeps, ltb_irrefl.
Qed.

Lemma max_fold_first l st :
  (fst (fst st) <? del) = true ->
  fold_left (max_step this x y radius del) l st
  = match first_inside this x y radius l with
    | Some theta => (del, Some (Math_cos theta), Some (Math_sin theta))
    | None => st
    end.
Proof.
  intros Hlt. induction l as [|theta l IH]; [done|].
  cbn [fold_left]. unfold first_inside in *. cbn [find].
  unfold max_step at 2. rewrite Hlt.
  destruct (outside _ _); cbn [negb]; [done|].
  apply max_fold_keeps, ltb_irrefl.
Qed.

Lemma first_inside_none l :
  Forall (fun theta => outside this (candidate x y radius theta) = true) l ->
  first_inside this x y radius l = None.
Proof.
  unfold first_inside. induction 1 as [|theta l Hout _ IH]; [done|].
  cbn [find]. by rewrite Hout.
Qed.

Lemma min_fold_outside l st :
  Forall (fun theta => outside this (candidate x y radius theta) = true) l ->
  fold_left (min_step this x y radius del) l st = st.
Proof.
  induction 1 as [|theta l Hout _ IH]; [done|].
  cbn [fold_left]. unfold min_step at 2. by rewrite Hout.
Qed.

Lemma max_fold_outside l st :
  Forall (fun theta => outside this (candidate x y radius theta) = true) l ->
  fold_left (max_step this x y radius del) l st = st.
Proof.
  induction 1 as [|theta l Hout _ IH]; [done|].
  cbn [fold_left]. unfold max_step at 2. by rewrite Hout.
Qed.

End Folds.

Section Bytes.
Local Open Scope float_scope.

(** Below [2^63] the conversion is the primitive one. *)
Lemma Z2F_prim z :
  (0 <= z < 2 ^ 63)%Z -> Z2F z = of_uint63 (Uint63.of_Z z).
Proof.
  intros Hz. unfold Z2F.
  rewrite <- (SF2Prim_Prim2SF (of_uint63 _)), of_uint63_spec.
  rewrite Uint63.of_Z_spec, Z.mod_small; [done|].
  change Uint63.wB with (2 ^ 63)%Z. lia.
Qed.

(** Checking a property of float arithmetic on every pair of a finite
    integer range, by evaluation. *)
Lemma forall_pairs (P : Z -> Z -> bool) (m n : Z) :
  forallb (fun a => forallb (P a) (seqZ 0 n)) (seqZ 0 m) = true ->
  forall a b, (0 <= a < m)%Z -> (0 <= b < n)%Z -> P a b = true.
Proof.
  intros Hall a b Ha Hb.
  rewrite forallb_forall in Hall.
  specialize (Hall a). rewrite forallb_forall in Hall.
  apply Hall; apply list_elem_of_In, elem_of_seqZ; lia.
Qed.

Lemma abs_sub_bytes a b :
  byte_range a -> byte_range b ->
  abs (Z2F a - Z2F b) = Z2F (Z.abs (a - b)).
Proof.
  intros Ha Hb. unfold byte_range in *.
  rewrite !Z2F_prim by lia. apply Leibniz.eqb_spec.
  apply (forall_pairs
           (fun a b => Leibniz.eqb (abs (prim a - prim b)) (prim (Z.abs (a - b))))
           256 256); [vm_compute; reflexivity | |]; lia.
Qed.

Lemma add_small a b :
  (0 <= a <= 510)%Z -> (0 <= b <= 255)%Z -> Z2F a + Z2F b = Z2F (a + b).
Proof.
  intros Ha Hb. rewrite !Z2F_prim by lia. apply Leibniz.eqb_spec.
  apply (forall_pairs (fun a b => Leibniz.eqb (prim a + prim b) (prim (a + b)))
           511 256); [vm_compute; reflexivity | |]; lia.
Qed.

(** Every sum of three byte distances lies strictly between the two
    initial values of the running extremum. *)
Lemma distance_between_sentinels n :
  (0 <= n <= 765)%Z ->
  (Z2F n <? Number_MAX_SAFE_INTEGER) = true /\ (-1 <? Z2F n) = true.
Proof.
  intros Hn. rewrite !Z2F_prim by lia. apply andb_true_iff.
  apply (forall_pairs
           (fun n _ => (prim n <? Number_MAX_SAFE_INTEGER) && (-1 <? prim n))
           766 1 ltac:(vm_compute; reflexivity) n 0%Z); lia.
Qed.

Lemma channel_distance_range r g b p q s :
  byte_range r -> byte_range g -> byte_range b ->
  byte_range p -> byte_range q -> byte_range s ->
  (0 <= channel_distance r g b p q s <= 765)%Z.
Proof. unfold byte_range, channel_distance. lia. Qed.

Lemma divergence_bytes r g b p q s :
  byte_range r -> byte_range g -> byte_range b ->
  byte_range p -> byte_range q -> byte_range s ->
  abs (Z2F r - Z2F p) + abs (Z2F g - Z2F q) + abs (Z2F b - Z2F s)
  = Z2F (channel_distance r g b p q s).
Proof.
  intros. unfold channel_distance.
  rewrite !abs_sub_bytes, !add_small by (unfold byte_range in *; lia).
  done.
Qed.

End Bytes.

Section Searches.
Context `{MathLib}.
Local Open Scope float_scope.

Lemma minGrad_fold fuel this x y color radius tests :
  minGrad fuel this x y color radius tests
  = (fun l => finish (fold_left
       (min_step this x y radius (divergence this x y (reference this x y color)))
       l (Number_MAX_SAFE_INTEGER, None, None)))
    <$> angles fuel (2 * Math_PI) (2 * Math_PI / tests).
Proof.
  unfold minGrad, reference. destruct color; apply minGrad_loop_fold.
Qed.

Lemma maxGrad_fold fuel this x y color radius tests :
  maxGrad fuel this x y color radius tests
  = (fun l => finish (fold_left
       (max_step this x y radius (divergence this x y (reference this x y color)))
       l (-1, None, None)))
    <$> angles fuel (2 * Math_PI) (2 * Math_PI / tests).
Proof.
  unfold maxGrad, reference. destruct color; apply maxGrad_loop_fold.
Qed.

(** The loop starts at [2*PI] and steps down by [dtheta]. *)
Lemma angles_descend fuel : forall theta dtheta l,
  angles fuel theta dtheta = Some l ->
  (forall t, head l = Some t -> t = theta)
  /\ (forall i t t', l !! i = Some t -> l !! S i = Some t' -> t' = t - dtheta).
Proof.
  induction fuel as [|fuel IH]; intros theta dtheta l; [done|].
  cbn [angles]. destruct (PrimFloat.ltb 0 theta); [|intros [= <-]; done].
  destruct (angles fuel _ dtheta) as [l'|] eqn:Hl'; [|done].
  intros [= <-]. destruct (IH _ _ _ Hl') as [Hhead Hstep].
  split; [by intros t [= <-]|].
  intros [|i] t t'; cbn.
  - intros [= <-] Ht'. apply Hhead. by destruct l'.
  - apply Hstep.
Qed.

Lemma angles_more_fuel fuel : forall fuel' theta dtheta l,
  angles fuel theta dtheta = Some l -> (fuel <= fuel')%nat ->
  angles fuel' theta dtheta = Some l.
Proof.
  induction fuel as [|fuel IH]; intros fuel' theta dtheta l; [done|].
  destruct fuel' as [|fuel']; [lia|].
  cbn [angles]. destruct (PrimFloat.ltb 0 theta); [|done].
  destruct (angles fuel _ dtheta) as [l'|] eqn:Hl'; [|done].
  intros [= <-] Hle. by rewrite (IH fuel' _ _ l') by (done || lia).
Qed.

Lemma center_pixel this x y :
  wf this -> in_range this x y ->
  exists p q s,
    byte_range p /\ byte_range q /\ byte_range s
    /\ elem (_data this) (4 * (y * _width this + x)) = Some p
    /\ elem (_data this) (4 * (y * _width this + x) + 1) = Some q
    /\ elem (_data this) (4 * (y * _width this + x) + 2) = Some s.
Proof.
  intros Hwf Hin. destruct (index_bounds this x y Hwf Hin) as [Hlo Hhi].
  destruct Hwf as [_ Hbytes]. rewrite Forall_lookup in Hbytes.
  set (ind := (4 * (y * _width this + x))%Z) in *.
  assert (Hget : forall k, (0 <= k <= 3)%Z ->
            exists p, byte_range p /\ elem (_data this) (ind + k) = Some p).
  { intros k Hk. unfold elem. destruct (decide _) as [_|]; [|lia].
    destruct (lookup_lt_is_Some_2 (_data this) (Z.to_nat (ind + k)))
      as [p Hp]; [lia|].
    exists p. split; [by eapply Hbytes | done]. }
  destruct (Hget 0%Z) as (p & ? & Hp); [lia|].
  destruct (Hget 1%Z) as (q & ? & Hq); [lia|].
  destruct (Hget 2%Z) as (s & ? & Hs); [lia|].
  rewrite Z.add_0_r in Hp. by exists p, q, s.
Qed.

(** In range, [del] is the float of an integer between 0 and 765. *)
Lemma divergence_in_range this x y color :
  wf this -> in_range this x y ->
  exists n, (0 <= n <= 765)%Z
            /\ divergence this x y (reference this x y color) = Z2F n.
Proof.
  intros Hwf Hin.
  destruct (center_pixel this x y Hwf Hin)
    as (p & q & s & Hp & Hq & Hs & Ep & Eq & Es).
  unfold divergence, reference.
  destruct color as [c|]; rewrite Ep, Eq, Es; cbn [ToFloat].
  - eexists. split; [|apply divergence_bytes];
      auto using channel_distance_range, byte_of_band, byte_of_band_low with lia.
  - eexists. split; [|by apply divergence_bytes].
    by apply channel_distance_range.
Qed.

Lemma min_step_shape this this' x y radius del st theta :
  _width this' = _width this -> _height this' = _height this ->
  min_step this' x y radius del st theta = min_step this x y radius del st theta.
Proof. intros Hw Hh. unfold min_step, outside. by rewrite Hw, Hh. Qed.

Lemma max_step_shape this this' x y radius del st theta :
  _width this' = _width this -> _height this' = _height this ->
  max_step this' x y radius del st theta = max_step this x y radius del st theta.
Proof. intros Hw Hh. unfold max_step, outside. by rewrite Hw, Hh. Qed.

Lemma fold_left_pointwise {A B} (f f' : A -> B -> A) l : forall a,
  (forall a b, f a b = f' a b) -> fold_left f l a = fold_left f' l a.
Proof.
  induction l as [|b l IH]; intros a Hf; [done|].
  cbn. rewrite Hf. by apply IH.
Qed.

End Searches.

(** C3: for an in-range centre, every divergence the loops compute is
    strictly below [minGrad]'s initial extremum and strictly above
    [maxGrad]'s; a running extremum is kept unless the divergence is
    strictly smaller (for [minGrad]) or strictly larger (for [maxGrad]); and
    both searches return the direction of the first angle, in the order
    [2*PI], [2*PI - dtheta], ..., whose candidate is inside the buffer.  All
    inside samples carry the same divergence, so this is the first sample
    that attains the extremum, and the later ties do not replace it. *)
Theorem first_extremal_sample_wins `{MathLib} fuel this x y color radius tests l :
  wf this -> in_range this x y ->
  angles fuel (2 * Math_PI) (2 * Math_PI / tests) = Some l ->
  let del := divergence this x y (reference this x y color) in
  let result := from_option toward unset (first_inside this x y radius l) in
  ((del <? Number_MAX_SAFE_INTEGER) = true /\ (-1 <? del) = true)%float
  /\ (forall m ex ey,
        let '(r, g, b) := reference this x y color in
        ((del <? m)%float = false ->
         minGrad_loop fuel this x y r g b radius (2 * Math_PI / tests)
           (2 * Math_PI) m ex ey = Some {| dx := ex; dy := ey |})
        /\ ((m <? del)%float = false ->
            maxGrad_loop fuel this x y r g b radius (2 * Math_PI / tests)
              (2 * Math_PI) m ex ey = Some {| dx := ex; dy := ey |}))
  /\ (exists rest, l = (2 * Math_PI)%float :: rest)
  /\ (forall i t t', l !! i = Some t -> l !! S i = Some t' ->
                     t' = (t - 2 * Math_PI / tests)%float)
  /\ minGrad fuel this x y color radius tests = Some result
  /\ maxGrad fuel this x y color radius tests = Some result.
Proof.
  intros Hwf Hin Hl del result.
  destruct (divergence_in_range this x y color Hwf Hin) as (n & Hn & Hdel).
  fold del in Hdel.
  destruct (distance_between_sentinels n Hn) as [Hmax Hmin].
  rewrite <- Hdel in Hmax, Hmin.
  destruct (angles_descend _ _ _ _ Hl) as [Hhead Hstep].
  repeat split; try done.
  - intros m ex ey. destruct (reference this x y color) as [[r g] b] eqn:Href.
    rewrite minGrad_loop_fold, maxGrad_loop_fold, Hl.
    cbn [fmap option_fmap option_map]. fold del.
    split; intros Hkeep; [rewrite min_fold_keeps | rewrite max_fold_keeps]; done.
  - destruct fuel as [|fuel]; [done|]. cbn [angles] in Hl.
    change (0 <? 2 * Math_PI)%float with true in Hl.
    destruct (angles fuel _ _) as [rest|]; [|done].
    injection Hl as <-. by exists rest.
  - rewrite minGrad_fold, Hl. cbn [fmap option_fmap option_map]. fold del.
    rewrite min_fold_first by done. subst result.
    by destruct (first_inside _ _ _ _ _).
  - rewrite maxGrad_fold, Hl. cbn [fmap option_fmap option_map]. fold del.
    rewrite max_fold_first by done. subst result.
    by destruct (first_inside _ _ _ _ _).
Qed.

Lemma wf_left_white : wf left_white.
Proof.
  split; [reflexivity|].
  repeat constructor; unfold byte_range; lia.
Qed.

Lemma wf_all_black : wf all_black.
Proof.
  split; [reflexivity|].
  repeat constructor; unfold byte_range; lia.
Qed.

Lemma in_range_center : in_range left_white 1 1.
Proof. unfold in_range; cbn; lia. Qed.

Lemma first_extremal_sample_wins_witness :
  wf left_white /\ in_range left_white 1 1
  /\ angles 5 (2 * Math_PI) (2 * Math_PI / 4) = Some quarter_turns
  /\ @minGrad quadrant 5 left_white 1 1 (Some 0) 1 4
     = Some (@toward quadrant (2 * Math_PI))
  /\ @maxGrad quadrant 5 left_white 1 1 (Some 0) 1 4
     = Some (@toward quadrant (2 * Math_PI)).
Proof.
  pose proof (@first_extremal_sample_wins quadrant 5 left_white 1 1 (Some 0) 1 4
                quarter_turns wf_left_white in_range_center eq_refl) as W.
  cbv zeta in W. destruct W as (_ & _ & _ & _ & Hmin & Hmax).
  split; [apply wf_left_white|]. split; [apply in_range_center|].
  split; [reflexivity|]. split; [exact Hmin | exact Hmax].
Defined.


(** X19: when the coordinate the loop tests -- the centre plus the
    absolute value of the offset -- is out of bounds at every angle of the
    loop, both searches return an object whose [dx] and [dy] are
    [undefined]. *)
Theorem no_direction_when_all_outside `{MathLib}
    fuel this x y color radius tests l :
  angles fuel (2 * Math_PI) (2 * Math_PI / tests) = Some l ->
  Forall (fun theta => outside this (candidate x y radius theta) = true) l ->
  minGrad fuel this x y color radius tests = Some unset
  /\ maxGrad fuel this x y color radius tests = Some unset.
Proof.
  intros Hl Hout.
  rewrite minGrad_fold, maxGrad_fold, Hl. cbn [fmap option_fmap option_map].
  by rewrite min_fold_outside, max_fold_outside.
Qed.

Lemma no_direction_when_all_outside_witness :
  angles 5 (2 * Math_PI) (2 * Math_PI / 4) = Some quarter_turns
  /\ Forall (fun theta => outside one_pixel (@candidate quadrant 0 0 5 theta) = true)
       quarter_turns
  /\ @minGrad quadrant 5 one_pixel 0 0 None 5 4 = Some unset
  /\ @maxGrad quadrant 5 one_pixel 0 0 None 5 4 = Some unset.
Proof.
  assert (Hout : Forall (fun theta =>
                   outside one_pixel (@candidate quadrant 0 0 5 theta) = true)
                   quarter_turns)
    by (repeat constructor).
  split; [reflexivity|]. split; [exact Hout|].
  exact (@no_direction_when_all_outside quadrant 5 one_pixel 0 0 None 5 4
           quarter_turns eq_refl Hout).
Defined.

(** C1: the searches read no pixel but the one at the centre.  Two buffers
    of the same dimensions that agree on the three colour bytes of [(x, y)]
    give the same result, whatever the pixels on the ring are. *)
Theorem ring_search_reads_center_only `{MathLib}
    fuel this this' x y color radius tests :
  _width this' = _width this -> _height this' = _height this ->
  elem (_data this') (4 * (y * _width this + x))
    = elem (_data this) (4 * (y * _width this + x)) ->
  elem (_data this') (4 * (y * _width this + x) + 1)
    = elem (_data this) (4 * (y * _width this + x) + 1) ->
  elem (_data this') (4 * (y * _width this + x) + 2)
    = elem (_data this) (4 * (y * _width this + x) + 2) ->
  minGrad fuel this' x y color radius tests = minGrad fuel this x y color radius tests
  /\ maxGrad fuel this' x y color radius tests = maxGrad fuel this x y color radius tests.
Proof.
  intros Hw Hh H0 H1 H2.
  assert (Hdel : divergence this' x y (reference this' x y color)
                 = divergence this x y (reference this x y color)).
  { unfold divergence, reference. destruct color; by rewrite Hw, H0, H1, H2. }
  rewrite !minGrad_fold, !maxGrad_fold, Hdel.
  destruct (angles fuel _ _) as [l|]; [|done].
  cbn [fmap option_fmap option_map].
  split; do 2 f_equal; apply fold_left_pointwise; intros st theta;
    [by apply min_step_shape | by apply max_step_shape].
Qed.

Lemma ring_search_reads_center_only_witness :
  @minGrad quadrant 5 left_white 1 1 (Some 0) 1 4
  = @minGrad quadrant 5 all_black 1 1 (Some 0) 1 4
  /\ @maxGrad quadrant 5 left_white 1 1 (Some 0) 1 4
     = @maxGrad quadrant 5 all_black 1 1 (Some 0) 1 4.
Proof.
  apply (@ring_search_reads_center_only quadrant 5 all_black left_white 1 1
           (Some 0) 1 4); reflexivity.
Defined.

(** What the searches do on [left_white], whose only pixel that differs from
    the reference colour lies left of the centre: at every angle the
    divergence is that of the centre pixel, [0]; at angle [PI] the bounds
    test is made on [(2, 1 + 2^-52)], right of the centre, not on the ring
    point [(0, 1 + 2^-52)]; and [maxGrad] answers with the first sample,
    which points right. *)
Lemma left_white_search :
  divergence left_white 1 1 (reference left_white 1 1 (Some 0)) = 0%float
  /\ get left_white 0 1 = Num 0xFFFFFF
  /\ @candidate quadrant 1 1 1 Math_PI = (2, 0x1.0000000000001p+0)%float
  /\ @ring_point quadrant 1 1 1 Math_PI = (0, 0x1.0000000000001p+0)%float
  /\ @maxGrad quadrant 5 left_white 1 1 (Some 0) 1 4
     = Some {| dx := Some 1%float; dy := Some (- 0x1.1a62633145c07p-52)%float |}.
Proof. repeat split; vm_compute; reflexivity. Qed.


Section Digits.

Lemma digits2_pos_bounds (m : positive) :
  2 ^ (Zpos (digits2_pos m) - 1) <= Zpos m < 2 ^ Zpos (digits2_pos m).
Proof.
  induction m as [p IH|p IH|]; cbn [digits2_pos]; [| |cbn; lia].
  - rewrite Pos2Z.inj_succ. change (Zpos p~1) with (2 * Zpos p + 1).
    replace (Z.succ (Zpos (digits2_pos p)) - 1)
      with (Z.succ (Zpos (digits2_pos p) - 1)) by lia.
    rewrite !Z.pow_succ_r by lia.
    set (a := 2 ^ (Zpos (digits2_pos p) - 1)) in *.
    set (b := 2 ^ Zpos (digits2_pos p)) in *. lia.
  - rewrite Pos2Z.inj_succ. change (Zpos p~0) with (2 * Zpos p).
    replace (Z.succ (Zpos (digits2_pos p)) - 1)
      with (Z.succ (Zpos (digits2_pos p) - 1)) by lia.
    rewrite !Z.pow_succ_r by lia.
    set (a := 2 ^ (Zpos (digits2_pos p) - 1)) in *.
    set (b := 2 ^ Zpos (digits2_pos p)) in *. lia.
Qed.

Lemma Zdigits2_bounds (m : Z) :
  0 < m -> 2 ^ (Zdigits2 m - 1) <= m < 2 ^ Zdigits2 m.
Proof. destruct m as [|p|p]; [lia| |lia]. intros _. apply digits2_pos_bounds. Qed.

Lemma Zdigits2_nonneg (m : Z) : 0 <= Zdigits2 m.
Proof. destruct m; cbn; lia. Qed.

(** The number of digits is decided by the two powers of two around. *)
Lemma Zdigits2_le (m : Z) (k : Z) :
  0 <= k -> 0 <= m < 2 ^ k -> Zdigits2 m <= k.
Proof.
  intros Hk [Hm Hlt]. destruct (Z.eq_dec m 0) as [->|Hne]; [cbn; lia|].
  destruct (Zdigits2_bounds m ltac:(lia)) as [Hlo _].
  destruct (Z.le_gt_cases (Zdigits2 m) k) as [|Hgt]; [done|].
  assert (2 ^ k <= 2 ^ (Zdigits2 m - 1)) by (apply Z.pow_le_mono_r; lia).
  lia.
Qed.

Lemma Zdigits2_ge (m : Z) (k : Z) :
  2 ^ k <= m -> k + 1 <= Zdigits2 m.
Proof.
  intros Hle. destruct (Z.le_gt_cases 0 k) as [Hk|Hk].
  - assert (0 < m) by (pose proof (Z.pow_pos_nonneg 2 k); lia).
    destruct (Zdigits2_bounds m ltac:(lia)) as [_ Hhi].
    destruct (Z.le_gt_cases (k + 1) (Zdigits2 m)) as [|Hgt]; [done|].
    assert (2 ^ Zdigits2 m <= 2 ^ k)
      by (apply Z.pow_le_mono_r; pose proof (Zdigits2_nonneg m); lia).
    lia.
  - pose proof (Zdigits2_nonneg m). lia.
Qed.

End Digits.

Section Shifts.

Lemma shr_1_spec (mrs : shr_record) :
  0 <= shr_m mrs ->
  shr_m (shr_1 mrs) = shr_m mrs / 2
  /\ shr_r (shr_1 mrs) = Z.odd (shr_m mrs)
  /\ shr_s (shr_1 mrs) = shr_r mrs || shr_s mrs.
Proof.
  destruct mrs as [m r s]. cbn [shr_m shr_r shr_s]. intros Hm.
  destruct m as [|[p|p|]|p]; try lia; cbn [shr_1 shr_m shr_r shr_s].
  - done.
  - split; [|done]. change (Zpos p~1) with (2 * Zpos p + 1).
    apply Z.div_unique with 1; lia.
  - split; [|done]. change (Zpos p~0) with (2 * Zpos p).
    apply Z.div_unique with 0; lia.
  - done.
Qed.

Lemma iter_pos_ind {A} (f : A -> A) (P : Z -> A -> Prop) :
  (forall k x, 0 <= k -> P k x -> P (k + 1) (f x)) ->
  forall p k x, 0 <= k -> P k x -> P (k + Zpos p) (SpecFloat.iter_pos f p x).
Proof.
  intros Hstep. induction p as [p IH|p IH|]; intros k x Hk Hx; cbn [SpecFloat.iter_pos].
  - replace (k + Zpos p~1) with (k + 1 + Zpos p + Zpos p) by lia.
    apply IH; [lia|]. apply IH; [lia|]. by apply Hstep.
  - replace (k + Zpos p~0) with (k + Zpos p + Zpos p) by lia.
    apply IH; [lia|]. by apply IH.
  - by apply Hstep.
Qed.

(** The state of the shifter after [k] one-bit shifts of [m0], started
    with round and sticky bits clear. *)
Lemma shifted_step m0 k mrs :
  0 <= m0 -> 0 <= k -> shifted m0 k mrs -> shifted m0 (k + 1) (shr_1 mrs).
Proof.
  intros Hm0 Hk (Hm & H0 & H1).
  assert (Hpos : 0 <= shr_m mrs)
    by (rewrite Hm; apply Z.div_pos; [lia | apply Z.pow_pos_nonneg; lia]).
  destruct (shr_1_spec mrs Hpos) as (Em & Er & Es).
  split; [|split].
  - rewrite Em, Hm, Z.pow_add_r, Z.div_div by lia. done.
    all: try apply Z.pow_pos_nonneg; lia.
  - lia.
  - intros _. replace (k + 1 - 1) with k by lia. rewrite Er, Es, Hm.
    split; [done|].
    destruct (Z.eq_dec k 0) as [->|Hne].
    + destruct (H0 eq_refl) as [-> ->]. by rewrite Z.pow_0_r, Z.mod_1_r.
    + destruct (H1 ltac:(lia)) as [-> ->].
      assert (Hp : 2 ^ k = 2 ^ (k - 1) * 2).
      { replace k with (Z.succ (k - 1)) at 1 by lia.
        rewrite Z.pow_succ_r; lia. }
      assert (0 < 2 ^ (k - 1)) by (apply Z.pow_pos_nonneg; lia).
      rewrite Hp, Z.rem_mul_r, Zmod_odd by lia.
      pose proof (Z.mod_pos_bound m0 (2 ^ (k - 1)) ltac:(lia)).
      destruct (Z.odd (m0 / 2 ^ (k - 1)));
        destruct (Z.eqb_spec (m0 mod 2 ^ (k - 1)) 0) as [E|E];
        cbn [orb negb]; symmetry;
        first [ apply negb_true_iff, Z.eqb_neq; nia
              | apply negb_false_iff, Z.eqb_eq; nia ].
Qed.

Lemma shr_spec (mrs : shr_record) (e n : Z) :
  0 <= shr_m mrs ->
  let k := Z.max 0 n in
  shr_m (fst (shr mrs e n)) = shr_m mrs / 2 ^ k
  /\ snd (shr mrs e n) = e + k
  /\ (shr_r mrs = false -> shr_s mrs = false ->
      shifted (shr_m mrs) k (fst (shr mrs e n))).
Proof.
  intros Hm k. subst k. destruct n as [|p|p]; cbn [shr fst snd].
  1,3: rewrite Z.max_l, Z.pow_0_r, Z.div_1_r, Z.add_0_r by lia;
       split; [done|]; split; [done|]; intros Hr Hs;
       (split; [by rewrite Z.pow_0_r, Z.div_1_r|]); split; [done | lia].
  rewrite Z.max_r by lia. split; [|split; [done|]].
  - apply (iter_pos_ind shr_1
             (fun k x => shr_m x = shr_m mrs / 2 ^ k) ) with (k := 0) (p := p);
      [|lia|by rewrite Z.pow_0_r, Z.div_1_r].
    intros k x Hk Hx.
    assert (0 <= shr_m x)
      by (rewrite Hx; apply Z.div_pos; [lia | apply Z.pow_pos_nonneg; lia]).
    destruct (shr_1_spec x) as [-> _]; [done|].
    rewrite Hx, Z.pow_add_r, Z.div_div by lia. done.
    all: try apply Z.pow_pos_nonneg; lia.
  - intros Hr Hs.
    apply (iter_pos_ind shr_1 (shifted (shr_m mrs))) with (k := 0) (p := p);
      [|lia|].
    + intros k x Hk. by apply shifted_step.
    + split; [by rewrite Z.pow_0_r, Z.div_1_r|]. split; [done | lia].
Qed.

Lemma round_nearest_even_bounds (mrs : shr_record) :
  let m2 := round_nearest_even (shr_m mrs) (loc_of_shr_record mrs) in
  shr_m mrs <= m2 <= shr_m mrs + 1 /\ (shr_r mrs = false -> m2 = shr_m mrs).
Proof.
  destruct mrs as [m [] []]; cbn; try destruct (Z.even m); split; (lia || done).
Qed.

(** Below the half-way point the round bit is clear. *)
Lemma round_bit_clear (m0 k : Z) (mrs : shr_record) :
  0 <= m0 -> 0 <= k -> shifted m0 k mrs ->
  2 * (m0 mod 2 ^ k) < 2 ^ k -> shr_r mrs = false.
Proof.
  intros Hm0 Hk (_ & H0 & H1) Hhalf.
  destruct (Z.eq_dec k 0) as [->|Hne]; [by destruct (H0 eq_refl)|].
  destruct (H1 ltac:(lia)) as [-> _].
  assert (Hp : 2 ^ k = 2 ^ (k - 1) * 2).
  { replace k with (Z.succ (k - 1)) at 1 by lia. rewrite Z.pow_succ_r; lia. }
  assert (0 < 2 ^ (k - 1)) by (apply Z.pow_pos_nonneg; lia).
  rewrite Hp, Z.rem_mul_r, Zmod_odd in Hhalf by lia.
  pose proof (Z.mod_pos_bound m0 (2 ^ (k - 1)) ltac:(lia)).
  destruct (Z.odd _); [nia | done].
Qed.

End Shifts.

Section Rounding.

(** What [binary_round_aux] returns: the mantissa is cut to the grid of
    [fexp], moved up by at most one unit (not at all below the half-way
    point of an exact input), and renormalised. *)
Lemma binary_round_aux_spec (sx : bool) (m e : Z) (l : location) :
  0 <= m ->
  let n := Z.max 0 (fexp prec emax (Zdigits2 m + e) - e) in
  exists m2,
    (m / 2 ^ n <= m2 <= m / 2 ^ n + 1)
    /\ (l = loc_Exact -> 2 * (m mod 2 ^ n) < 2 ^ n -> m2 = m / 2 ^ n)
    /\ let n2 := Z.max 0 (fexp prec emax (Zdigits2 m2 + (e + n)) - (e + n)) in
       binary_round_aux prec emax sx m e l
       = match m2 / 2 ^ n2 with
         | Z0 => S754_zero sx
         | Zpos m3 =>
             if e + n + n2 <=? emax - prec
             then S754_finite sx m3 (e + n + n2)
             else S754_infinity sx
         | Zneg _ => S754_nan
         end.
Proof.
  intros Hm n. unfold binary_round_aux, shr_fexp.
  set (mrs0 := shr_record_of_loc m l).
  assert (Hm0 : shr_m mrs0 = m) by (subst mrs0; by destruct l as [|[]]).
  destruct (shr_spec mrs0 e (fexp prec emax (Zdigits2 m + e) - e))
    as (Hm1 & He1 & Hsh); [lia|].
  fold n in Hm1, He1, Hsh. rewrite Hm0 in Hm1, Hsh.
  destruct (shr mrs0 e _) as [mrs' e'] eqn:Hshr. cbn [fst snd] in *. subst e'.
  destruct (round_nearest_even_bounds mrs') as [Hb Hr].
  set (m2 := round_nearest_even (shr_m mrs') (loc_of_shr_record mrs')) in *.
  exists m2. rewrite Hm1 in Hb, Hr. split; [done|]. split.
  - intros -> Hhalf. apply Hr.
    apply (round_bit_clear m n); [done | lia | by apply Hsh | done].
  - set (n2 := Z.max 0 (fexp prec emax (Zdigits2 m2 + (e + n)) - (e + n))).
    assert (Hm2 : 0 <= m2).
    { assert (0 <= m / 2 ^ n)
        by (apply Z.div_pos; [lia | apply Z.pow_pos_nonneg; lia]). lia. }
    destruct (shr_spec (shr_record_of_loc m2 loc_Exact) (e + n)
                (fexp prec emax (Zdigits2 m2 + (e + n)) - (e + n)))
      as (Hm3 & He3 & _); [done|].
    fold n2 in Hm3, He3. cbn [shr_m shr_record_of_loc] in Hm3.
    destruct (shr _ (e + n) _) as [mrs'' e''] eqn:Hshr2.
    cbn [fst snd] in *. subst e''. by rewrite Hm3.
Qed.

End Rounding.

Section Align.

Lemma fexp_eq (z : Z) : fexp prec emax z = Z.max (z - 53) (-1074).
Proof. reflexivity. Qed.

Lemma iter_xO (m d : positive) : Zpos (Pos.iter xO m d) = Zpos m * 2 ^ Zpos d.
Proof.
  induction d as [|d IH] using Pos.peano_ind.
  - cbn. lia.
  - rewrite Pos.iter_succ, Pos2Z.inj_succ, Z.pow_succ_r by lia.
    change (Zpos (Pos.iter xO m d)~0) with (2 * Zpos (Pos.iter xO m d)). lia.
Qed.

(** [shl_align] lowers the exponent to the smaller of the two and scales
    the mantissa to keep the value. *)
Lemma shl_align_spec (m : positive) (e e' : Z) :
  snd (shl_align m e e') = Z.min e e'
  /\ Zpos (fst (shl_align m e e')) = Zpos m * 2 ^ (e - Z.min e e').
Proof.
  unfold shl_align. destruct (e' - e) as [|d|d] eqn:Hd; cbn [fst snd].
  - rewrite Z.min_l by lia. rewrite Z.sub_diag. lia.
  - rewrite Z.min_l by lia. rewrite Z.sub_diag. lia.
  - rewrite Z.min_r by lia. split; [done|].
    rewrite iter_xO. f_equal. f_equal. lia.
Qed.

(** What validity says of a finite float. *)
Lemma valid_finite (f : float) (s : bool) (m : positive) (e : Z) :
  Prim2SF f = S754_finite s m e ->
  -1074 <= e <= 971 /\ Zpos m < 2 ^ 53 /\ (-1074 < e -> 2 ^ 52 <= Zpos m).
Proof.
  intros Hf. pose proof (Prim2SF_valid f) as Hv. rewrite Hf in Hv.
  cbn [valid_binary] in Hv. unfold bounded, canonical_mantissa in Hv.
  apply andb_prop in Hv as [Hc Hb].
  apply Z.eqb_eq in Hc. apply Z.leb_le in Hb. rewrite fexp_eq in Hc.
  change (emax - prec) with 971 in Hb.
  pose proof (digits2_pos_bounds m) as [Hlo Hhi].
  assert (Hd : Zpos (digits2_pos m) <= 53) by lia.
  split; [lia|]. split.
  - eapply Z.lt_le_trans; [exact Hhi|]. apply Z.pow_le_mono_r; lia.
  - intros He. assert (Zpos (digits2_pos m) = 53) as Hd53 by lia.
    rewrite Hd53 in Hlo. exact Hlo.
Qed.

End Align.

Section Subtraction.

Lemma pow2_pos (k : Z) : 0 <= k -> 0 < 2 ^ k.
Proof. intros. apply Z.pow_pos_nonneg; lia. Qed.

Lemma fexp_digits_le (M E k : Z) :
  0 <= M < 2 ^ k -> 0 <= k ->
  fexp prec emax (Zdigits2 M + E) <= Z.max (k + E - 53) (-1074).
Proof.
  intros HM Hk. rewrite fexp_eq.
  pose proof (Zdigits2_le M k Hk HM). lia.
Qed.

(** The arithmetic of one rounding step below a grid point [g]: taking
    away more than half a unit of the grid lands on [g - 1] or lower. *)
Lemma round_below (n g D M m2 : Z) :
  0 <= n -> M = g * 2 ^ n - D -> 0 <= M -> 1 <= D ->
  (1 <= n -> 2 ^ (n - 1) < D) ->
  M / 2 ^ n <= m2 <= M / 2 ^ n + 1 ->
  (2 * (M mod 2 ^ n) < 2 ^ n -> m2 = M / 2 ^ n) ->
  m2 <= g - 1.
Proof.
  intros Hn HM HM0 HD Hhalf Hm2 Hexact.
  destruct (Z.eq_dec n 0) as [->|Hn0].
  - rewrite Z.pow_0_r, Z.mod_1_r, Z.div_1_r in *. lia.
  - specialize (Hhalf ltac:(lia)).
    assert (Hp : 2 ^ n = 2 * 2 ^ (n - 1)).
    { replace n with (Z.succ (n - 1)) at 1 by lia. rewrite Z.pow_succ_r; lia. }
    pose proof (pow2_pos (n - 1) ltac:(lia)) as Hpos.
    pose proof (Z.div_mod M (2 ^ n) ltac:(lia)) as Hdm.
    pose proof (Z.mod_pos_bound M (2 ^ n) ltac:(lia)) as Hr.
    set (q := M / 2 ^ n) in *. set (r := M mod 2 ^ n) in *.
    set (P := 2 ^ (n - 1)) in *. rewrite Hp in *.
    assert (Hq : q <= g - 1) by nia.
    destruct (Z.eq_dec q (g - 1)) as [Hqg|Hqg]; [|lia].
    rewrite Hexact; [lia|]. nia.
Qed.

Lemma binary_round_sign (sx : bool) (p : positive) (e : Z) :
  match binary_round prec emax sx p e with
  | S754_finite s _ _ | S754_infinity s | S754_zero s => s = sx
  | S754_nan => True
  end.
Proof.
  unfold binary_round. destruct (shl_align p e _) as [mz ez].
  destruct (binary_round_aux_spec sx (Zpos mz) ez loc_Exact) as (m2 & _ & _ & ->);
    [lia|].
  destruct (_ / _); [done | by destruct (_ <=? _) | done].
Qed.

Lemma mul_cancel_lt (P Y K T : Z) :
  0 < K -> P * K <= T -> T < Y * K -> P < Y.
Proof. intros HK H1 H2. apply (Z.mul_lt_mono_pos_r K); lia. Qed.

Lemma difference_below (p mx my A B : Z) :
  0 < A -> 0 < B -> mx * A - my = p -> 0 < my -> mx < B -> p < B * A.
Proof.
  intros HA HB Hp Hmy Hmx.
  assert (mx * A < B * A) by (apply Z.mul_lt_mono_pos_r; lia). lia.
Qed.

Lemma below_grid (m2 mx C B : Z) :
  0 < C -> m2 <= mx * C - 1 -> mx < B -> m2 < B * C.
Proof.
  intros HC Hm2 Hmx.
  assert (mx * C < B * C) by (apply Z.mul_lt_mono_pos_r; lia). lia.
Qed.

Lemma renormalised_below (m2 m3 r mx N C K : Z) :
  0 < K -> 0 < N -> m2 = N * m3 + r -> 0 <= r -> m2 <= mx * C - 1 ->
  m3 * (N * K) < mx * (C * K).
Proof.
  intros HK HN Hm2 Hr Hb. rewrite !Z.mul_assoc.
  apply Z.mul_lt_mono_pos_r; [done|]. lia.
Qed.

Lemma SFsub_below (mx my : positive) (ex ey : Z) :
  -1074 <= ex <= -50 -> Zpos mx < 2 ^ 53 ->
  -1074 <= ey -> (-1074 < ey -> 2 ^ 52 <= Zpos my) ->
  2 ^ 1023 < scaled my ey ->
  match SFsub prec emax (S754_finite false mx ex) (S754_finite false my ey) with
  | S754_finite false m3 e3 =>
      -1074 <= e3 <= ex /\ scaled m3 e3 < scaled mx ex
  | S754_infinity false => False
  | _ => True
  end.
Proof.
  intros Hex Hmx Hey Hmy Hd. unfold scaled in *.
  cbn [SFsub cond_Zopp].
  destruct (shl_align_spec mx ex (Z.min ex ey)) as [_ HA].
  destruct (shl_align_spec my ey (Z.min ex ey)) as [_ HB].
  rewrite HA, HB. clear HA HB.
  rewrite (Z.min_r ex (Z.min ex ey)), (Z.min_r ey (Z.min ex ey)) by lia.
  assert (Hneg : forall q ez, match binary_round prec emax true q ez with
                              | S754_finite false _ _ => False
                              | S754_infinity false => False
                              | _ => True
                              end).
  { intros q ez. pose proof (binary_round_sign true q ez) as Hs.
    destruct (binary_round _ _ _ _ _) as [[]|[]| |[] ? ?]; done. }
  destruct (Z_le_gt_dec ey ex) as [Hle|Hgt].
  2:{ (* the subtrahend has the larger exponent: the difference is negative *)
    rewrite !Z.min_l by lia. rewrite Z.sub_diag, Z.pow_0_r, Z.mul_1_r.
    assert (2 ^ 53 <= Zpos my * 2 ^ (ey - ex)).
    { specialize (Hmy ltac:(lia)).
      assert (2 ^ 1 <= 2 ^ (ey - ex)) by (apply Z.pow_le_mono_r; lia).
      change (2 ^ 53) with (2 ^ 52 * 2 ^ 1).
      apply Z.mul_le_mono_nonneg; lia. }
    destruct (Zpos mx - _) as [|q|q] eqn:Hq; try lia.
    cbn [binary_normalize]. specialize (Hneg q ex).
    by destruct (binary_round prec emax true q ex) as [[]|[]| |[] ? ?]. }
  rewrite !Z.min_r by lia.
  rewrite (Z.sub_diag ey), Z.pow_0_r, Z.mul_1_r.
  destruct (Zpos mx * 2 ^ (ex - ey) - Zpos my) as [|p|q] eqn:Hp;
    cbn [binary_normalize];
    [done| |specialize (Hneg q ey);
            by destruct (binary_round prec emax true q ey) as [[]|[]| |[] ? ?]].
  clear Hneg Hmy. unfold binary_round.
  destruct (shl_align_spec p ey (fexp prec emax (Zpos (digits2_pos p) + ey)))
    as [HE HM].
  destruct (shl_align p ey _) as [mz E]. cbn [fst snd] in HE, HM.
  rewrite <- HE in HM.
  assert (HE1 : -1074 <= E <= ey) by (rewrite fexp_eq in HE; lia).
  clear HE.
  destruct (binary_round_aux_spec false (Zpos mz) E loc_Exact)
    as (m2 & Hm2 & Hexact & ->); [lia|].
  specialize (Hexact eq_refl).
  set (n := Z.max 0 (fexp prec emax (Zdigits2 (Zpos mz) + E) - E)) in *.
  (* the value being rounded is below that of the minuend *)
  set (a := ex - ey) in *. set (b := ey - E) in *.
  assert (Ha : 0 <= a) by lia. assert (Hb : 0 <= b) by lia.
  pose proof (pow2_pos a Ha) as Hpa. pose proof (pow2_pos b Hb) as Hpb.
  assert (HMlt : Zpos mz < 2 ^ (53 + (a + b))).
  { rewrite HM, !Z.pow_add_r, Z.mul_assoc by lia.
    apply Z.mul_lt_mono_pos_r; [done|].
    apply (difference_below _ (Zpos mx) (Zpos my)); lia. }
  assert (HF : E + n <= ex).
  { pose proof (fexp_digits_le (Zpos mz) E (53 + (a + b)) ltac:(lia) ltac:(lia)).
    clear - H HE1 Hle Hex. lia. }
  assert (Hn : 0 <= n) by (clear; lia).
  set (c := ex - (E + n)) in *. assert (Hc : 0 <= c) by (clear - HF; lia).
  pose proof (pow2_pos c Hc) as Hpc. pose proof (pow2_pos n Hn) as Hpn.
  assert (Hsplit : 2 ^ (a + b) = 2 ^ c * 2 ^ n).
  { rewrite <- Z.pow_add_r by lia. f_equal. clear. lia. }
  assert (HMg : Zpos mz = Zpos mx * 2 ^ c * 2 ^ n - Zpos my * 2 ^ b).
  { rewrite HM, <- Hp, Z.mul_sub_distr_r, <- Z.mul_assoc, <- Z.pow_add_r by lia.
    rewrite Hsplit. clear. lia. }
  assert (Hhalf : 1 <= n -> 2 ^ (n - 1) < Zpos my * 2 ^ b).
  { intros Hn1.
    assert (Hs : 2 ^ (ey + 1074) = 2 ^ b * 2 ^ (E + 1074)).
    { rewrite <- Z.pow_add_r by lia. f_equal. clear. lia. }
    assert (Hle' : 2 ^ (n - 1) * 2 ^ (E + 1074) <= 2 ^ 1023).
    { rewrite <- Z.pow_add_r by lia. apply Z.pow_le_mono_r; [lia|].
      clear - HF Hex. lia. }
    pose proof (pow2_pos (E + 1074) ltac:(lia)) as HK.
    rewrite Hs, Z.mul_assoc in Hd.
    exact (mul_cancel_lt _ _ _ _ HK Hle' Hd). }
  clear Hd.
  assert (HD1 : 1 <= Zpos my * 2 ^ b).
  { pose proof (Z.mul_pos_pos (Zpos my) (2 ^ b) ltac:(lia) Hpb). lia. }
  assert (Hbelow : m2 <= Zpos mx * 2 ^ c - 1).
  { apply (round_below n _ (Zpos my * 2 ^ b) (Zpos mz)); try done. }
  assert (Hm20 : 0 <= m2).
  { assert (0 <= Zpos mz / 2 ^ n) by (apply Z.div_pos; lia). lia. }
  clear HMg Hhalf Hexact Hm2 HMlt HM Hp Hsplit HD1.
  set (n2 := Z.max 0 (fexp prec emax (Zdigits2 m2 + (E + n)) - (E + n))).
  assert (HF2 : E + n + n2 <= ex).
  { assert (Hlt : m2 < 2 ^ (53 + c)).
    { rewrite Z.pow_add_r by lia. by apply (below_grid _ (Zpos mx)). }
    pose proof (fexp_digits_le m2 (E + n) (53 + c) ltac:(lia) ltac:(lia)).
    clear - H Hex HF. lia. }
  assert (Hn2 : 0 <= n2) by (clear; lia).
  pose proof (pow2_pos n2 Hn2) as Hpn2.
  pose proof (Z.div_mod m2 (2 ^ n2) ltac:(lia)) as Hdm.
  pose proof (Z.mod_pos_bound m2 (2 ^ n2) ltac:(lia)) as Hr.
  destruct (m2 / 2 ^ n2) as [|m3|m3] eqn:Hm3; [done| |done].
  destruct (E + n + n2 <=? emax - prec) eqn:Hov;
    [|apply Z.leb_gt in Hov; change (emax - prec) with 971 in Hov;
      clear - Hov HF2 Hex; lia].
  split; [clear - HF2 HE1 Hn Hn2; lia|].
  assert (Hs1 : 2 ^ (E + n + n2 + 1074) = 2 ^ n2 * 2 ^ (E + n + 1074)).
  { rewrite <- Z.pow_add_r by lia. f_equal. clear. lia. }
  assert (Hs2 : 2 ^ (ex + 1074) = 2 ^ c * 2 ^ (E + n + 1074)).
  { rewrite <- Z.pow_add_r by lia. f_equal. clear. lia. }
  pose proof (pow2_pos (E + n + 1074) ltac:(lia)) as HK.
  rewrite Hs1, Hs2.
  apply (renormalised_below m2 _ (m2 mod 2 ^ n2)); try done. lia.
Qed.

End Subtraction.

Section Descent.
Local Open Scope float_scope.

Lemma positive_cases (f : float) :
  (0 <? f) = match Prim2SF f with
             | S754_finite false _ _ | S754_infinity false => true
             | _ => false
             end.
Proof.
  rewrite ltb_spec. change (Prim2SF 0) with (S754_zero false).
  by destruct (Prim2SF f) as [[]|[]| |[] ? ?].
Qed.

Lemma scaled_rank (m1 m2 : positive) (e1 e2 : Z) :
  (-1074 <= e1 -> -1074 <= e2 ->
   Zpos m1 < 2 ^ 53 -> (-1074 < e1 -> 2 ^ 52 <= Zpos m1) -> Zpos m2 < 2 ^ 53 ->
   scaled m1 e1 < scaled m2 e2 ->
   (e1 + 1074) * 2 ^ 53 + Zpos m1 < (e2 + 1074) * 2 ^ 53 + Zpos m2)%Z.
Proof.
  unfold scaled. intros He1 He2 Hm1 Hn1 Hm2 Hlt.
  pose proof (pow2_pos (e2 + 1074) ltac:(lia)) as Hk2.
  destruct (Z.lt_trichotomy e1 e2) as [Hlt12|[->|Hgt12]].
  - lia.
  - nia.
  - exfalso. specialize (Hn1 ltac:(lia)).
    assert (Hs : (2 ^ (e1 + 1074) = 2 ^ (e1 - e2) * 2 ^ (e2 + 1074))%Z).
    { rewrite <- Z.pow_add_r by lia. f_equal. lia. }
    assert ((2 ^ 1 <= 2 ^ (e1 - e2))%Z) by (apply Z.pow_le_mono_r; lia).
    rewrite Hs in Hlt. change (2 ^ 53)%Z with (2 ^ 52 * 2 ^ 1)%Z in Hm2. nia.
Qed.

Lemma step_cases (d : float) :
  (0x1p-51 <? d) = true ->
  Prim2SF d = S754_infinity false
  \/ exists my ey, Prim2SF d = S754_finite false my ey
       /\ (-1074 <= ey)%Z /\ (-1074 < ey -> 2 ^ 52 <= Zpos my)%Z
       /\ (2 ^ 1023 < scaled my ey)%Z.
Proof.
  rewrite ltb_spec.
  change (Prim2SF 0x1p-51) with (S754_finite false 4503599627370496 (-103)).
  pose proof (valid_finite d) as Hv.
  destruct (Prim2SF d) as [[]|[]| |[] my ey]; try discriminate; [by left|].
  destruct (Hv false my ey eq_refl) as (He & Hm & Hn).
  unfold SFltb, SFcompare. intros Hlt. right. exists my, ey.
  split; [done|]. split; [lia|]. split; [done|]. unfold scaled.
  revert Hlt.
  destruct (Z.compare_spec (-103) ey) as [<-|Hl|Hg]; intros Hlt;
    [| |discriminate].
  - assert (4503599627370496 < my)%positive.
    { unfold Pos.lt, Pos.compare.
      by destruct (Pos.compare_cont Eq _ my). }
    change (-103 + 1074)%Z with 971%Z.
    change (2 ^ 1023)%Z with (4503599627370496 * 2 ^ 971)%Z.
    pose proof (pow2_pos 971 ltac:(lia)). nia.
  - specialize (Hn ltac:(lia)).
    assert (2 ^ 972 <= 2 ^ (ey + 1074))%Z by (apply Z.pow_le_mono_r; lia).
    change (2 ^ 1023)%Z with (2 ^ 51 * 2 ^ 972)%Z.
    pose proof (pow2_pos 972 ltac:(lia)).
    change (2 ^ 52)%Z with (2 * 2 ^ 51)%Z in Hn.
    pose proof (pow2_pos 51 ltac:(lia)). nia.
Qed.

(** One pass of the loop, below 8 and with a step above [2^-51]: the angle
    is no longer positive, or it has moved down. *)
Lemma sub_step (theta d : float) :
  below_8 theta = true -> (0x1p-51 <? d) = true ->
  (0 <? theta - d) = false
  \/ (below_8 (theta - d) = true /\ (0 <= rank (theta - d) < rank theta)%Z).
Proof.
  unfold below_8, rank. rewrite positive_cases.
  pose proof (valid_finite theta) as Hvt.
  pose proof (valid_finite (theta - d)) as Hvr.
  rewrite sub_spec in *. unfold SF64sub in *.
  destruct (Prim2SF theta) as [[]|[]| |[] mx ex]; try discriminate.
  intros Hex%Z.leb_le Hd.
  destruct (Hvt false mx ex eq_refl) as (He & Hm & Hn).
  destruct (step_cases d Hd) as [Hd'|(my & ey & Hd' & Hey & Hmy & Hval)];
    rewrite Hd' in *; [by left|].
  pose proof (SFsub_below mx my ex ey ltac:(lia) Hm Hey Hmy Hval) as Hs.
  destruct (SFsub _ _ _ _) as [[]|[]| |[] m3 e3]; try (by left).
  right. destruct Hs as [He3 Hlt].
  destruct (Hvr false m3 e3 eq_refl) as (_ & Hm3 & Hn3).
  split; [apply Z.leb_le; lia|].
  pose proof (scaled_rank m3 mx e3 ex ltac:(lia) ltac:(lia) Hm3 Hn3 Hm Hlt).
  lia.
Qed.

Lemma rank_nonneg (f : float) : (0 <= rank f)%Z.
Proof.
  unfold rank. pose proof (valid_finite f) as Hv.
  destruct (Prim2SF f) as [[]|[]| |[] m e]; try lia.
  destruct (Hv false m e eq_refl) as (He & _). lia.
Qed.

Lemma below_8_rank (f : float) : below_8 f = true -> (0 < rank f)%Z.
Proof.
  unfold below_8, rank. pose proof (valid_finite f) as Hv.
  destruct (Prim2SF f) as [[]|[]| |[] m e]; try discriminate.
  destruct (Hv false m e eq_refl) as (He & _). lia.
Qed.

(** With a step above [2^-51], a loop that starts below 8 ends, after at
    most [rank theta] passes. *)
Lemma angles_total (d : float) :
  (0x1p-51 <? d) = true ->
  forall fuel theta,
    ((0 <? theta) = true -> below_8 theta = true) ->
    (rank theta < Z.of_nat fuel)%Z ->
    exists l, angles fuel theta d = Some l
              /\ (Z.of_nat (length l) <= rank theta)%Z.
Proof.
  intros Hd. induction fuel as [|fuel IH]; intros theta Hb Hr.
  - pose proof (rank_nonneg theta). lia.
  - cbn [angles]. destruct (0 <? theta) eqn:Hpos.
    + pose proof (below_8_rank theta (Hb eq_refl)) as Hr0.
      destruct (sub_step theta d (Hb eq_refl) Hd) as [Hend|[Hb' Hr']].
      * destruct fuel as [|fuel]; [lia|]. cbn [angles]. rewrite Hend.
        exists [theta]. split; [done|]. cbn [length]. lia.
      * destruct (IH (theta - d)) as (l & -> & Hl); [done|lia|].
        exists (theta :: l). split; [done|]. cbn [length]. lia.
    + exists []. split; [done|]. cbn. apply rank_nonneg.
Qed.

End Descent.

Section Division.

Lemma Zdigits2_53 (m : Z) : 2 ^ 52 <= m < 2 ^ 53 -> Zdigits2 m = 53.
Proof.
  intros Hm. pose proof (Zdigits2_le m 53 ltac:(lia) ltac:(lia)).
  pose proof (Zdigits2_ge m 52 ltac:(lia)). lia.
Qed.

Lemma SFdiv_above (my : positive) (ey : Z) :
  2 ^ 52 <= Zpos my < 2 ^ 53 ->
  -52 <= ey <= 0 \/ (ey = 1 /\ Zpos my = 2 ^ 52) ->
  exists m3 e3,
    SFdiv prec emax (S754_finite false 7074237752028440 (-50))
                    (S754_finite false my ey) = S754_finite false m3 e3
    /\ (-103 < e3 \/ (e3 = -103 /\ 2 ^ 52 < Zpos m3)).
Proof.
  intros Hmy Hey. cbn [SFdiv xorb]. unfold SFdiv_core_binary.
  rewrite (Zdigits2_53 (Zpos my) Hmy).
  change (Zdigits2 7074237752028440) with 53.
  assert (He' : Z.min (fexp prec emax (53 + -50 - (53 + ey))) (-50 - ey)
                = -103 - ey) by (rewrite fexp_eq; lia).
  cbv zeta. rewrite He'.
  replace (-50 - ey - (-103 - ey)) with 53 by lia. cbv iota.
  rewrite Z.shiftl_mul_pow2 by lia.
  pose proof (Z_div_mod (7074237752028440 * 2 ^ 53) (Zpos my) ltac:(lia)) as Hqr.
  destruct (Z.div_eucl _ _) as [q r]. destruct Hqr as [Hq Hr].
  assert (Hq0 : 7074237752028440 <= q < 2 ^ 54).
  { clear - Hq Hr Hmy. nia. }
  assert (Hq1 : ey = 1 -> q = 2 * 7074237752028440).
  { clear - Hq Hr Hey. intros He1. destruct Hey as [?|[_ Hm]]; [lia|].
    rewrite Hm in Hq, Hr. lia. }
  clear Hq Hr.
  destruct (binary_round_aux_spec false q (-103 - ey) (new_location (Zpos my) r))
    as (m2 & Hm2 & _ & ->); [lia|].
  set (n := Z.max 0 (fexp prec emax (Zdigits2 q + (-103 - ey)) - (-103 - ey))) in *.
  (* the quotient has 53 or 54 digits *)
  pose proof (Zdigits2_ge q 52 ltac:(lia)) as Hdq1.
  pose proof (Zdigits2_le q 54 ltac:(lia) ltac:(lia)) as Hdq2.
  assert (Hn : n = Zdigits2 q - 53) by (subst n; rewrite fexp_eq; lia).
  clearbody n.
  assert (Hn1 : ey = 1 -> n = 1).
  { intros He1. pose proof (Zdigits2_ge q 53 ltac:(lia)). lia. }
  assert (Hqn : 2 ^ 52 <= q / 2 ^ n /\ (n = 0 -> q / 2 ^ n = q)
                /\ (ey = 1 -> q / 2 ^ n = 7074237752028440)).
  { destruct (Z.eq_dec n 0) as [Hz|Hnz].
    - rewrite Hz, Z.pow_0_r, Z.div_1_r. lia.
    - assert (Hn' : n = 1) by lia. rewrite Hn', Z.pow_1_r.
      pose proof (Zdigits2_bounds q ltac:(lia)) as [Hlo _].
      replace (Zdigits2 q - 1) with 53 in Hlo by lia.
      split; [|split; [lia|]].
      + apply Z.div_le_lower_bound; lia.
      + intros He1. rewrite (Hq1 He1), Z.mul_comm, Z.div_mul; lia. }
  destruct Hqn as (Hqlo & Hqn0 & Hqn1).
  assert (Hm2' : 2 ^ 52 <= m2 < 2 ^ 55).
  { assert (q / 2 ^ n <= q).
    { apply Z.div_le_upper_bound; [apply pow2_pos; lia|].
      pose proof (pow2_pos n ltac:(lia)).
      rewrite <- (Z.mul_1_l q) at 1. apply Z.mul_le_mono_nonneg_r; lia. }
    clear - H Hm2 Hqlo Hq0. lia. }
  pose proof (Zdigits2_ge m2 52 ltac:(lia)) as Hd1.
  pose proof (Zdigits2_le m2 55 ltac:(lia) ltac:(lia)) as Hd2.
  set (n2 := Z.max 0 (fexp prec emax (Zdigits2 m2 + (-103 - ey + n))
                      - (-103 - ey + n))).
  assert (Hn2 : n2 = Zdigits2 m2 - 53).
  { subst n2. rewrite fexp_eq. clear - Hd1 Hd2 Hdq1 Hdq2 Hn Hey. lia. }
  clearbody n2.
  pose proof (Zdigits2_bounds m2 ltac:(lia)) as [Hlo2 _].
  assert (Hm3 : 1 <= m2 / 2 ^ n2 /\ (n2 = 0 -> m2 / 2 ^ n2 = m2)).
  { split.
    - apply Z.div_le_lower_bound; [apply pow2_pos; lia|].
      rewrite Z.mul_1_r. etransitivity; [|exact Hlo2].
      apply Z.pow_le_mono_r; lia.
    - intros ->. by rewrite Z.pow_0_r, Z.div_1_r. }
  destruct Hm3 as [Hm3 Hm30].
  destruct (m2 / 2 ^ n2) as [|m3|m3] eqn:Hdiv; [lia| |lia].
  destruct (_ <=? _) eqn:Hov;
    [|apply Z.leb_gt in Hov; change (emax - prec) with 971 in Hov; lia].
  exists m3, (-103 - ey + n + n2). split; [done|].
  destruct (Z_lt_le_dec (-103) (-103 - ey + n + n2)) as [Hlt|Hge]; [by left|].
  right. assert (Hn20 : n2 = 0) by lia. specialize (Hm30 Hn20).
  split; [lia|].
  destruct (Z.eq_dec ey 1) as [He1|He1].
  - specialize (Hqn1 He1). lia.
  - assert (n = 0) by lia. specialize (Hqn0 ltac:(done)). lia.
Qed.

Lemma SFleb_finite (m1 m2 : positive) (e1 e2 : Z) :
  SFleb (S754_finite false m1 e1) (S754_finite false m2 e2) = true ->
  e1 < e2 \/ (e1 = e2 /\ Zpos m1 <= Zpos m2).
Proof.
  unfold SFleb, SFcompare.
  destruct (Z.compare_spec e1 e2) as [->|Hl|Hg]; [|by left|discriminate].
  change (Pos.compare_cont Eq m1 m2) with (Pos.compare m1 m2).
  destruct (Pos.compare_spec m1 m2); try discriminate; intros _; right; lia.
Qed.

Lemma SFltb_finite (m1 m2 : positive) (e1 e2 : Z) :
  e1 < e2 \/ (e1 = e2 /\ Zpos m1 < Zpos m2) ->
  SFltb (S754_finite false m1 e1) (S754_finite false m2 e2) = true.
Proof.
  unfold SFltb, SFcompare. intros [Hl|[-> Hm]].
  - by destruct (Z.compare_spec e1 e2); try lia.
  - rewrite Z.compare_refl.
    change (Pos.compare_cont Eq m1 m2) with (Pos.compare m1 m2).
    by destruct (Pos.compare_spec m1 m2); try lia.
Qed.

Section Steps.
Local Open Scope float_scope.

(** For a count between 1 and [2^53] the step is above [2^-51]. *)
Lemma step_above (tests : float) :
  (1 <=? tests) = true -> (tests <=? 0x1p+53) = true ->
  (0x1p-51 <? 2 * Math_PI / tests) = true.
Proof.
  rewrite !leb_spec, ltb_spec, div_spec. unfold SF64div.
  change (Prim2SF 1) with (S754_finite false 4503599627370496 (-52)).
  change (Prim2SF 0x1p+53) with (S754_finite false 4503599627370496 1).
  change (Prim2SF 0x1p-51) with (S754_finite false 4503599627370496 (-103)).
  change (Prim2SF (2 * Math_PI)) with (S754_finite false 7074237752028440 (-50)).
  pose proof (valid_finite tests) as Hv.
  destruct (Prim2SF tests) as [[]|[]| |[] my ey]; try discriminate.
  destruct (Hv false my ey eq_refl) as (He & Hm & Hn).
  intros H1%SFleb_finite H2%SFleb_finite.
  specialize (Hn ltac:(lia)).
  destruct (SFdiv_above my ey) as (m3 & e3 & -> & He3); [lia|lia|].
  apply SFltb_finite. lia.
Qed.

End Steps.

End Division.

Section Termination.
Local Open Scope float_scope.

Lemma passes_checked : forallb passes_ok (seqZ 1 2000) = true.
Proof. vm_compute. reflexivity. Qed.

Lemma angles_terminate n :
  (1 <= n <= 2000)%Z ->
  exists l, angles (Z.to_nat n + 2) (2 * Math_PI) (2 * Math_PI / Z2F n) = Some l
            /\ (n <= Z.of_nat (length l) <= n + 1)%Z.
Proof.
  intros Hn. pose proof passes_checked as Hall.
  rewrite forallb_forall in Hall.
  specialize (Hall n ltac:(apply list_elem_of_In, elem_of_seqZ; lia)).
  unfold passes_ok in Hall. rewrite Z2F_prim by lia.
  destruct (angles _ _ _) as [l|]; [|done].
  exists l. split; [done|]. lia.
Qed.

(** With a step below half the spacing of the floats around [2*PI],
    subtracting it gives [2*PI] back and the loop never leaves its first
    angle. *)
Lemma angles_stuck theta dtheta fuel :
  (0 <? theta) = true -> (theta - dtheta) = theta ->
  angles fuel theta dtheta = None.
Proof.
  intros Hpos Hsame. induction fuel as [|fuel IH]; [done|].
  cbn [angles]. by rewrite Hpos, Hsame, IH.
Qed.

(** A loop that ends needs one test of its condition more than it makes
    passes. *)
Lemma angles_least_fuel fuel theta dtheta l :
  angles fuel theta dtheta = Some l ->
  angles (S (length l)) theta dtheta = Some l.
Proof.
  revert theta l. induction fuel as [|fuel IH]; intros theta l; [done|].
  cbn [angles]. destruct (0 <? theta) eqn:Hpos.
  - destruct (angles fuel _ _) as [l'|] eqn:Hl'; [|done].
    intros [= <-]. apply IH in Hl'. cbn [length]. by rewrite Hl'.
  - by intros [= <-].
Qed.

End Termination.

(** C10 (as amended): whenever the step [2*PI/tests] that the searches
    compute is above [2^-51] -- as it is for every [tests] from 1 to [2^53]
    -- the loops of [minGrad] and [maxGrad] end: the angle goes from [2*PI]
    down through a finite list of positive values, and both searches return
    as soon as the budget allows one test of the loop condition more than
    there are passes.  For an integer count from 1 to 2000 there are [tests]
    or [tests + 1] passes. *)
Theorem ring_search_terminates `{MathLib} (tests : float) this x y color radius :
  ((1 <=? tests)%float = true /\ (tests <=? 0x1p+53)%float = true)
  \/ (0x1p-51 <? 2 * Math_PI / tests)%float = true ->
  exists l : list float,
    (forall fuel, (length l < fuel)%nat ->
       angles fuel (2 * Math_PI) (2 * Math_PI / tests) = Some l
       /\ is_Some (minGrad fuel this x y color radius tests)
       /\ is_Some (maxGrad fuel this x y color radius tests))
    /\ (forall n, 1 <= n <= 2000 -> tests = Z2F n ->
                  n <= Z.of_nat (length l) <= n + 1).
Proof.
  intros Hstep.
  assert (Hd : (0x1p-51 <? 2 * Math_PI / tests)%float = true).
  { destruct Hstep as [[H1 H2]|Hd]; [by apply step_above | done]. }
  destruct (angles_total _ Hd (S (Z.to_nat (rank (2 * Math_PI)%float)))
              (2 * Math_PI)%float) as (l & Hl & _).
  { intros _. reflexivity. }
  { pose proof (rank_nonneg (2 * Math_PI)%float). lia. }
  apply angles_least_fuel in Hl. exists l. split.
  - intros fuel Hfuel.
    apply angles_more_fuel with (fuel' := fuel) in Hl; [|lia].
    rewrite minGrad_fold, maxGrad_fold, Hl. repeat split; by eexists.
  - intros n Hn ->. destruct (angles_terminate n Hn) as (l' & Hl' & Hlen).
    apply angles_least_fuel in Hl'.
    apply angles_more_fuel with (fuel' := (S (length l) + S (length l'))%nat)
      in Hl, Hl'; try lia.
    rewrite Hl in Hl'. by injection Hl' as <-.
Qed.

Lemma ring_search_terminates_witness :
  (is_Some (@minGrad quadrant 14 left_white 1 1 None 4 (Z2F 12))
   /\ is_Some (@maxGrad quadrant 14 left_white 1 1 None 4 (Z2F 12)))
  /\ exists fuel, is_Some (@minGrad quadrant fuel left_white 1 1 None 4 1.4e16)
                  /\ is_Some (@maxGrad quadrant fuel left_white 1 1 None 4 1.4e16).
Proof.
  split.
  - destruct (@ring_search_terminates quadrant (Z2F 12) left_white 1 1 None 4%float)
      as (l & Hret & Hlen); [left; split; reflexivity|].
    specialize (Hlen 12 ltac:(lia) eq_refl).
    destruct (Hret 14%nat ltac:(lia)) as (_ & Hmin & Hmax).
    split; [exact Hmin | exact Hmax].
  - destruct (@ring_search_terminates quadrant 1.4e16%float left_white 1 1 None 4%float)
      as (l & Hret & _); [right; reflexivity|].
    exists (S (length l)).
    destruct (Hret (S (length l)) ltac:(lia)) as (_ & Hmin & Hmax).
    split; [exact Hmin | exact Hmax].
Defined.

(** C10 as stated fails: with [tests = 1e17] the step is absorbed by
    rounding and no budget lets [minGrad] return. *)
Lemma ring_search_stuck :
  ~ (forall tests : float, (1 <=? tests)%float = true ->
       exists fuel, is_Some (@minGrad quadrant fuel one_pixel 0 0 None 4 tests)).
Proof.
  intros Hall. destruct (Hall 1e17%float eq_refl) as [fuel [d Hd]].
  rewrite minGrad_fold, angles_stuck in Hd; [discriminate | |];
    vm_compute; reflexivity.
Qed.

(** The bound [2^-51] on the step is the exact one at [2*PI]: with
    [tests = 14148475504056880] the step is [2^-51], the subtraction falls
    half-way between [2*PI] and its predecessor and rounds to [2*PI], whose
    mantissa is even, and the loop does not end. *)
Lemma loop_stuck_at_threshold :
  (2 * Math_PI / 14148475504056880 = 0x1p-51)%float
  /\ (2 * Math_PI - 0x1p-51 = 2 * Math_PI)%float
  /\ forall fuel,
       angles fuel (2 * Math_PI) (2 * Math_PI / 14148475504056880) = None.
Proof.
  split; [reflexivity|]. split; [reflexivity|].
  intros fuel. apply angles_stuck; reflexivity.
Qed.

(* ================================================================== *)
(** * Further properties of the accessors *)

Section Stores.

Lemma elem_None d i :
  elem d i = None <-> i < 0 \/ Z.of_nat (length d) <= i.
Proof.
  unfold elem. destruct (decide (0 <= i)) as [Hi|Hi].
  - rewrite lookup_ge_None. lia.
  - split; [lia | done].
Qed.

Lemma store_outside d i v :
  i < 0 \/ Z.of_nat (length d) <= i -> store d i v = d.
Proof.
  intros Hi. unfold store. destruct (decide (0 <= i)); [|done].
  apply list_insert_ge. lia.
Qed.

(** A read after a write, whatever the two indices are. *)
Lemma elem_store d i v k :
  elem (store d i v) k
  = if decide (k = i /\ 0 <= i < Z.of_nat (length d))
    then Some (clamp8 v) else elem d k.
Proof.
  destruct (decide _) as [[-> Hi]|Hn].
  - by apply elem_store_eq.
  - destruct (decide (i = k)) as [->|Hne]; [|by apply elem_store_ne].
    rewrite store_outside; [done | lia].
Qed.

(** Two arrays that read alike at every index are the same array. *)
Lemma elem_ext d d' : (forall k, elem d k = elem d' k) -> d = d'.
Proof.
  intros Heq. apply list_eq. intros n. specialize (Heq (Z.of_nat n)).
  unfold elem in Heq. destruct (decide _); [|lia].
  by rewrite Nat2Z.id in Heq.
Qed.

Lemma with_data_same this : with_data this (_data this) = this.
Proof. by destruct this as [s r [d w h] W H]. Qed.

Lemma store_data_with this i v :
  store_data this i v = with_data this (store (_data this) i v).
Proof. done. Qed.

Lemma store_stored d i b :
  elem d i = Some b -> byte_range b -> store d i b = d.
Proof.
  intros Hb Hr. unfold store, elem in *. destruct (decide _); [|done].
  rewrite clamp8_byte by done. by apply list_insert_id.
Qed.

End Stores.

Ltac by_elems :=
  apply elem_ext; intros ?k; rewrite !elem_store, ?length_store;
  repeat case_decide; try done; try lia.

Section Pixels4.

(** The four bytes of an in-range pixel. *)
Lemma pixel_bytes this x y :
  wf this -> in_range this x y ->
  exists r g b a,
    (byte_range r /\ byte_range g /\ byte_range b /\ byte_range a)
    /\ parts32 this x y
       = {| r32 := Some r; g32 := Some g; b32 := Some b; a32 := Some a |}.
Proof.
  intros Hwf Hin. destruct (index_bounds this x y Hwf Hin) as [Hlo Hhi].
  destruct Hwf as [_ Hbytes]. rewrite Forall_lookup in Hbytes.
  unfold parts32. set (ind := 4 * (y * _width this + x)) in *.
  assert (Hget : forall k, 0 <= k <= 3 ->
            exists p, byte_range p /\ elem (_data this) (ind + k) = Some p).
  { intros k Hk. unfold elem. destruct (decide _) as [_|]; [|lia].
    destruct (lookup_lt_is_Some_2 (_data this) (Z.to_nat (ind + k)))
      as [p Hp]; [lia|].
    exists p. split; [by eapply Hbytes | done]. }
  destruct (Hget 0) as (r & ? & Hr); [lia|].
  destruct (Hget 1) as (g & ? & Hg); [lia|].
  destruct (Hget 2) as (b & ? & Hb); [lia|].
  destruct (Hget 3) as (a & ? & Ha); [lia|].
  rewrite Z.add_0_r in Hr. exists r, g, b, a.
  by rewrite Hr, Hg, Hb, Ha.
Qed.

Lemma index_apart this x y x' y' :
  in_range this x y -> in_range this x' y' -> (x, y) <> (x', y') ->
  4 * (y * _width this + x) + 3 < 4 * (y' * _width this + x')
  \/ 4 * (y' * _width this + x') + 3 < 4 * (y * _width this + x).
Proof.
  intros [Hx Hy] [Hx' Hy'] Hne.
  destruct (Z.lt_trichotomy y y') as [?|[->|?]]; [left; nia| |right; nia].
  destruct (Z.lt_trichotomy x x') as [?|[->|?]]; [left; lia|done|right; lia].
Qed.

End Pixels4.

(** X1: on an in-range pixel, writing the green, blue or alpha channel and
    reading it back gives the written value clamped to a byte, hence the
    value itself when it is a byte. *)
Theorem channel_roundtrip this x y v :
  wf this -> in_range this x y ->
  green (setGreen this x y v) x y = Some (clamp8 v)
  /\ blue (setBlue this x y v) x y = Some (clamp8 v)
  /\ alpha (setAlpha this x y v) x y = Some (clamp8 v)
  /\ (byte_range v -> clamp8 v = v).
Proof.
  intros Hwf Hin. destruct (index_bounds this x y Hwf Hin).
  unfold green, blue, alpha, setGreen, setBlue, setAlpha.
  repeat split; try (expose_data this; by elem_simpl).
  apply clamp8_byte.
Qed.

Lemma channel_roundtrip_witness :
  wf one_pixel /\ in_range one_pixel 0 0
  /\ green (setGreen one_pixel 0 0 300) 0 0 = Some 255
  /\ alpha (setAlpha one_pixel 0 0 7) 0 0 = Some 7.
Proof.
  destruct (channel_roundtrip one_pixel 0 0 300 wf_one_pixel in_range_one_pixel)
    as (Hg & _).
  destruct (channel_roundtrip one_pixel 0 0 7 wf_one_pixel in_range_one_pixel)
    as (_ & _ & Ha & _).
  split; [apply wf_one_pixel|]. split; [apply in_range_one_pixel|].
  split; [exact Hg | exact Ha].
Defined.

(** X2: on an in-range pixel, each single-channel setter changes its own
    channel of [parts32] and leaves the other three as they were. *)
Theorem channel_setters_independent this x y v :
  wf this -> in_range this x y ->
  let p := parts32 this x y in
  parts32 (setRed this x y v) x y
  = {| r32 := Some (clamp8 v); g32 := g32 p; b32 := b32 p; a32 := a32 p |}
  /\ parts32 (setGreen this x y v) x y
     = {| r32 := r32 p; g32 := Some (clamp8 v); b32 := b32 p; a32 := a32 p |}
  /\ parts32 (setBlue this x y v) x y
     = {| r32 := r32 p; g32 := g32 p; b32 := Some (clamp8 v); a32 := a32 p |}
  /\ parts32 (setAlpha this x y v) x y
     = {| r32 := r32 p; g32 := g32 p; b32 := b32 p; a32 := Some (clamp8 v) |}.
Proof.
  intros Hwf Hin p. destruct (index_bounds this x y Hwf Hin). subst p.
  unfold parts32, setRed, setGreen, setBlue, setAlpha.
  repeat split; expose_data this; by elem_simpl.
Qed.

Lemma channel_setters_independent_witness :
  parts32 (setGreen one_pixel 0 0 99) 0 0
  = {| r32 := Some 10; g32 := Some 99; b32 := Some 30; a32 := Some 40 |}.
Proof.
  exact (proj1 (proj2 (channel_setters_independent one_pixel 0 0 99
                         wf_one_pixel in_range_one_pixel))).
Defined.

(** X4: nothing checks the coordinates: [get] and [get32] return NaN
    exactly when the blue byte's index falls outside the array, and never
    throw. *)
Theorem unchecked_read_NaN this x y :
  let ind := 4 * (y * _width this + x) in
  (get this x y = NaN
   <-> ind + 2 < 0 \/ Z.of_nat (length (_data this)) <= ind + 2)
  /\ (get32 this x y = NaN
      <-> ind + 2 < 0 \/ Z.of_nat (length (_data this)) <= ind + 2).
Proof.
  intros ind. rewrite <- elem_None. unfold get, get32. fold ind.
  destruct (elem (_data this) (ind + 2)); cbn [ToNumber add];
    repeat split; intros; done.
Qed.

(** X5: a write whose pixel index lies outside the array changes nothing:
    every setter returns the object as it was. *)
Theorem writes_outside_ignored this x y c :
  let ind := 4 * (y * _width this + x) in
  ind + 3 < 0 \/ Z.of_nat (length (_data this)) <= ind ->
  set this x y c = this /\ set32 this x y c = this
  /\ setRed this x y c = this /\ setGreen this x y c = this
  /\ setBlue this x y c = this /\ setAlpha this x y c = this.
Proof.
  intros ind Hout.
  assert (Hstore : forall i v, ind <= i <= ind + 3 -> store_data this i v = this).
  { intros i v Hi.
    rewrite store_data_with, store_outside, with_data_same; [done | lia]. }
  unfold set, set32, setRed, setGreen, setBlue, setAlpha. fold ind. cbv zeta.
  rewrite !Hstore by lia. done.
Qed.

Lemma writes_outside_ignored_witness :
  set32 one_pixel 1 0 0xFFFFFFFF = one_pixel
  /\ setAlpha one_pixel (-1) 0 0 = one_pixel.
Proof.
  split.
  - apply (writes_outside_ignored one_pixel 1 0 0xFFFFFFFF). cbn. lia.
  - apply (writes_outside_ignored one_pixel (-1) 0 0). cbn. lia.
Defined.

(** X6: a column past the right edge is the next row: [(x + width, y)] and
    [(x, y + 1)] address the same bytes, for reading and for writing. *)
Theorem rows_alias this x y c :
  get this (x + _width this) y = get this x (y + 1)
  /\ get32 this (x + _width this) y = get32 this x (y + 1)
  /\ set this (x + _width this) y c = set this x (y + 1) c
  /\ set32 this (x + _width this) y c = set32 this x (y + 1) c.
Proof.
  unfold get, get32, set, set32.
  replace (4 * (y * _width this + (x + _width this)))
    with (4 * ((y + 1) * _width this + x)) by lia.
  done.
Qed.

Section Composition.

Lemma set_with this x y c :
  let ind := 4 * (y * _width this + x) in
  set this x y c
  = with_data this
      (store (store (store (_data this) ind (band 0xFF (sar c 16)))
                    (ind + 1) (band 0xFF (sar c 8)))
             (ind + 2) (band 0xFF c)).
Proof. cbv zeta. unfold set. by rewrite <- !Z.add_assoc. Qed.

Lemma set32_with this x y c :
  let ind := 4 * (y * _width this + x) in
  set32 this x y c
  = with_data this
      (store (store (store (store (_data this) ind (band 0xFF (sar c 16)))
                           (ind + 1) (band 0xFF (sar c 8)))
                    (ind + 2) (band 0xFF c))
             (ind + 3) (band 0xFF (sar c 24))).
Proof. cbv zeta. unfold set32. by rewrite <- !Z.add_assoc. Qed.

(** The packed values of an in-range pixel, from its four bytes. *)
Lemma packed_values this x y r g b a :
  byte_range r -> byte_range g -> byte_range b -> byte_range a ->
  parts32 this x y
  = {| r32 := Some r; g32 := Some g; b32 := Some b; a32 := Some a |} ->
  get this x y = Num (r * 2 ^ 16 + g * 2 ^ 8 + b)
  /\ get32 this x y
     = Num (if a <? 128
            then a * 2 ^ 24 + r * 2 ^ 16 + g * 2 ^ 8 + b
            else a * 2 ^ 24 + r * 2 ^ 16 + g * 2 ^ 8 + b - 2 ^ 32).
Proof.
  intros Br Bg Bb Ba Hp. unfold parts32 in Hp. injection Hp as Hr Hg Hbl Ha.
  unfold get, get32. rewrite Hr, Hg, Hbl, Ha. unfold byte_range in *.
  rewrite !shl_byte by (done || lia). cbn [ToNumber add].
  rewrite (ToInt32_small (r * _)), (ToInt32_small (g * _)) by lia.
  split; [done|]. f_equal.
  unfold ToInt32. destruct (Z.ltb_spec a 128).
  - rewrite Z.mod_small; lia.
  - replace (a * 2 ^ 24 + 2 ^ 31) with (a * 2 ^ 24 - 2 ^ 31 + 1 * 2 ^ 32) by lia.
    rewrite Z.mod_add, Z.mod_small; lia.
Qed.

End Composition.

(** X3: on an in-range pixel, [get] is the three bytes of [parts] packed as
    [r*2^16 + g*2^8 + b], and [get32] is the four bytes of [parts32] packed
    with the alpha byte on top, less [2^32] when the alpha byte is 128 or
    more. *)
Theorem get_packs_parts this x y :
  wf this -> in_range this x y ->
  exists r g b a,
    (byte_range r /\ byte_range g /\ byte_range b /\ byte_range a)
    /\ parts this x y = {| r_ := Some r; g_ := Some g; b_ := Some b |}
    /\ parts32 this x y
       = {| r32 := Some r; g32 := Some g; b32 := Some b; a32 := Some a |}
    /\ get this x y = Num (r * 2 ^ 16 + g * 2 ^ 8 + b)
    /\ get32 this x y
       = Num (if a <? 128
              then a * 2 ^ 24 + r * 2 ^ 16 + g * 2 ^ 8 + b
              else a * 2 ^ 24 + r * 2 ^ 16 + g * 2 ^ 8 + b - 2 ^ 32).
Proof.
  intros Hwf Hin.
  destruct (pixel_bytes this x y Hwf Hin)
    as (r & g & b & a & (Br & Bg & Bb & Ba) & Hp).
  exists r, g, b, a. split; [done|].
  destruct (packed_values this x y r g b a Br Bg Bb Ba Hp) as [Hget Hget32].
  repeat split; try done.
  unfold parts32 in Hp. injection Hp as Hr Hg Hbl _.
  unfold parts. by rewrite Hr, Hg, Hbl.
Qed.

Lemma get_packs_parts_witness :
  exists r g b a, parts32 one_pixel 0 0
                  = {| r32 := Some r; g32 := Some g; b32 := Some b; a32 := Some a |}
                  /\ get one_pixel 0 0 = Num (r * 2 ^ 16 + g * 2 ^ 8 + b).
Proof.
  destruct (get_packs_parts one_pixel 0 0 wf_one_pixel in_range_one_pixel)
    as (r & g & b & a & _ & _ & Hp & Hg & _).
  by exists r, g, b, a.
Defined.


(** X7: [set] and [set32] on one in-range pixel leave every other in-range
    pixel as it was. *)
Theorem set_leaves_other_pixels this x y c x' y' :
  wf this -> in_range this x y -> in_range this x' y' -> (x, y) <> (x', y') ->
  parts32 (set this x y c) x' y' = parts32 this x' y'
  /\ parts32 (set32 this x y c) x' y' = parts32 this x' y'
  /\ get32 (set this x y c) x' y' = get32 this x' y'
  /\ get32 (set32 this x y c) x' y' = get32 this x' y'.
Proof.
  intros Hwf Hin Hin' Hne.
  pose proof (index_apart this x y x' y' Hin Hin' Hne) as Hapart.
  rewrite set_with, set32_with. unfold parts32, get32.
  cbn [with_data _width _data _imageData id_data].
  set (i := 4 * (y * _width this + x)) in *.
  set (j := 4 * (y' * _width this + x')) in *.
  rewrite !elem_store_ne by lia. done.
Qed.

Lemma set_leaves_other_pixels_witness :
  get32 (set32 left_white 1 1 0x80123456) 0 1 = get32 left_white 0 1.
Proof.
  apply (set_leaves_other_pixels left_white 1 1 0x80123456 0 1);
    [apply wf_left_white | unfold in_range; cbn; lia
    | unfold in_range; cbn; lia | discriminate].
Defined.

(** X8: writing back what was read changes nothing: [set] with the value
    of [get], and [set32] with the (possibly negative) value of [get32],
    return the object as it was. *)
Theorem write_back_is_identity this x y c :
  wf this -> in_range this x y ->
  (get this x y = Num c -> set this x y c = this)
  /\ (get32 this x y = Num c -> set32 this x y c = this).
Proof.
  intros Hwf Hin.
  destruct (pixel_bytes this x y Hwf Hin)
    as (r & g & b & a & (Br & Bg & Bb & Ba) & Hp).
  destruct (packed_values this x y r g b a Br Bg Bb Ba Hp) as [Hget Hget32].
  unfold parts32 in Hp. injection Hp as Hr Hg Hbl Ha.
  unfold byte_range in *.
  split.
  - rewrite Hget. intros [= <-]. rewrite set_with. cbv zeta.
    rewrite !band_sar, band_low by lia.
    rewrite ToInt32_small by lia.
    replace ((r * 2 ^ 16 + g * 2 ^ 8 + b) / 2 ^ 16 mod 256) with r
      by (Z.div_mod_to_equations; lia).
    replace ((r * 2 ^ 16 + g * 2 ^ 8 + b) / 2 ^ 8 mod 256) with g
      by (Z.div_mod_to_equations; lia).
    replace ((r * 2 ^ 16 + g * 2 ^ 8 + b) mod 256) with b
      by (Z.div_mod_to_equations; lia).
    rewrite !(store_stored (_data this)) by done. apply with_data_same.
  - rewrite Hget32. intros [= <-]. rewrite set32_with. cbv zeta.
    rewrite !band_sar, band_low by lia.
    set (n := a * 2 ^ 24 + r * 2 ^ 16 + g * 2 ^ 8 + b).
    assert (Hn : ToInt32 (if a <? 128 then n else n - 2 ^ 32)
                 = if a <? 128 then n else n - 2 ^ 32)
      by (apply ToInt32_small; destruct (Z.ltb_spec a 128); lia).
    rewrite Hn.
    replace ((if a <? 128 then n else n - 2 ^ 32) / 2 ^ 16 mod 256) with r
      by (destruct (a <? 128); subst n; Z.div_mod_to_equations; lia).
    replace ((if a <? 128 then n else n - 2 ^ 32) / 2 ^ 8 mod 256) with g
      by (destruct (a <? 128); subst n; Z.div_mod_to_equations; lia).
    replace ((if a <? 128 then n else n - 2 ^ 32) mod 256) with b
      by (destruct (a <? 128); subst n; Z.div_mod_to_equations; lia).
    replace ((if a <? 128 then n else n - 2 ^ 32) / 2 ^ 24 mod 256) with a
      by (destruct (a <? 128); subst n; Z.div_mod_to_equations; lia).
    rewrite !(store_stored (_data this)) by done. apply with_data_same.
Qed.

Lemma write_back_is_identity_witness :
  set one_pixel 0 0 0x0A141E = one_pixel.
Proof.
  apply (write_back_is_identity one_pixel 0 0 0x0A141E
           wf_one_pixel in_range_one_pixel).
  reflexivity.
Defined.

(** X9: packed writes to two different in-range pixels commute. *)
Theorem writes_to_distinct_pixels_commute this x y c x' y' c' :
  in_range this x y -> in_range this x' y' -> (x, y) <> (x', y') ->
  set (set this x y c) x' y' c' = set (set this x' y' c') x y c
  /\ set32 (set32 this x y c) x' y' c' = set32 (set32 this x' y' c') x y c
  /\ set32 (set this x y c) x' y' c' = set (set32 this x' y' c') x y c.
Proof.
  intros Hin Hin' Hne.
  pose proof (index_apart this x y x' y' Hin Hin' Hne) as Hapart.
  rewrite !set_with, !set32_with.
  cbn [with_data _width _data _imageData id_data _source _rect _height
       id_width id_height].
  set (i := 4 * (y * _width this + x)) in *.
  set (j := 4 * (y' * _width this + x')) in *.
  unfold with_data. cbn [_source _rect _imageData _width _height id_width id_height].
  repeat split; do 2 f_equal; by_elems.
Qed.

Lemma writes_to_distinct_pixels_commute_witness :
  set (set left_white 0 1 0) 1 1 0xFFFFFF = set (set left_white 1 1 0xFFFFFF) 0 1 0.
Proof.
  apply (writes_to_distinct_pixels_commute left_white 0 1 0 1 1 0xFFFFFF);
    [unfold in_range; cbn; lia | unfold in_range; cbn; lia | discriminate].
Defined.

(** X10: of two packed writes to the same pixel the later one wins: [set]
    after [set], [set32] after [set32], and [set32] after [set]. *)
Theorem last_write_wins this x y c c' :
  set (set this x y c) x y c' = set this x y c'
  /\ set32 (set32 this x y c) x y c' = set32 this x y c'
  /\ set32 (set this x y c) x y c' = set32 this x y c'.
Proof.
  rewrite !set_with, !set32_with.
  cbn [with_data _width _data _imageData id_data _source _rect _height
       id_width id_height].
  set (i := 4 * (y * _width this + x)) in *.
  unfold with_data. cbn [_source _rect _imageData _width _height id_width id_height].
  repeat split; do 2 f_equal; by_elems.
Qed.

(** X11: the two packed formats agree on the colour bytes: [get] after
    [set32] gives [c & 0xFFFFFF] and the alpha byte is bits 24..31 of [c];
    [get32] after [set] gives the old alpha byte over the new colour. *)
Theorem mixed_packed_access this x y c :
  wf this -> in_range this x y ->
  get (set32 this x y c) x y = Num (band c 0xFFFFFF)
  /\ alpha (set32 this x y c) x y = Some (band 0xFF (sar c 24))
  /\ exists a, alpha this x y = Some a /\ byte_range a
       /\ get32 (set this x y c) x y
          = Num ((if a <? 128 then a * 2 ^ 24 else a * 2 ^ 24 - 2 ^ 32)
                 + band c 0xFFFFFF).
Proof.
  intros Hwf Hin. destruct (index_bounds this x y Hwf Hin) as [Hlo Hhi].
  destruct (pixel_bytes this x y Hwf Hin)
    as (r & g & b & a & (Br & Bg & Bb & Ba) & Hp).
  unfold parts32 in Hp. injection Hp as _ _ _ Ha.
  rewrite set_with, set32_with. unfold get, get32, alpha.
  cbn [with_data _width _data _imageData id_data].
  set (ind := 4 * (y * _width this + x)) in *.
  split; [|split; [|exists a; split; [done|split; [done|]]]].
  - elem_simpl.
    rewrite !clamp8_byte by auto using byte_of_band, byte_of_band_low with lia.
    rewrite !shl_byte by auto using byte_of_band with lia.
    cbn [ToNumber add]. f_equal.
    rewrite !band_sar, band_low, band_mask24 by lia. apply pack24.
  - elem_simpl. f_equal. apply clamp8_byte, byte_of_band. lia.
  - elem_simpl. rewrite Ha.
    rewrite !clamp8_byte by auto using byte_of_band, byte_of_band_low with lia.
    rewrite !shl_byte by auto using byte_of_band with lia.
    cbn [ToNumber add]. f_equal.
    rewrite !band_sar, band_low, band_mask24 by lia.
    rewrite <- pack24, !Z.add_assoc. f_equal. f_equal. f_equal.
    unfold byte_range in Ba. unfold ToInt32. destruct (Z.ltb_spec a 128).
    + rewrite Z.mod_small; lia.
    + replace (a * 2 ^ 24 + 2 ^ 31) with (a * 2 ^ 24 - 2 ^ 31 + 1 * 2 ^ 32) by lia.
      rewrite Z.mod_add, Z.mod_small; lia.
Qed.

Lemma mixed_packed_access_witness :
  get (set32 one_pixel 0 0 0xFF112233) 0 0 = Num 0x112233
  /\ alpha (set32 one_pixel 0 0 0xFF112233) 0 0 = Some 0xFF.
Proof.
  destruct (mixed_packed_access one_pixel 0 0 0xFF112233
              wf_one_pixel in_range_one_pixel) as (Hg & Ha & _).
  split; [exact Hg | exact Ha].
Defined.

(** X12: when construction from a raw array succeeds, the object holds
    that very array, positive dimensions with
    [length = width * height * 4], and no [rect]: [fromArray] does not pass
    its [rect] on to [fromData]. *)
Theorem array_construction `{Globals} `{Dom} (array : list Z) (rect : option Rect) :
  fst (new_ImageWrap (IsArray array) rect) = Normal tt ->
  exists img,
    snd (new_ImageWrap (IsArray array) rect) = Some img
    /\ _data img = array /\ _rect img = None /\ _source img = None
    /\ 0 < _width img /\ 0 < _height img
    /\ Z.of_nat (length array) = _width img * _height img * 4
    /\ (Forall byte_range array -> wf img).
Proof.
  unfold new_ImageWrap, constructor, fromArray.
  destruct global_Image, global_Canvas, global_UInt8ClampedArray;
    cbn [negb]; try discriminate.
  destruct rect as [r|]; [|discriminate].
  assert (Hok : forall sw sh,
    0 <= sw ->
    fst ((let* d := lift (construct_ImageData array sw sh) in fromData d None) None)
      = Normal tt ->
    exists img,
      snd ((let* d := lift (construct_ImageData array sw sh) in fromData d None) None)
        = Some img
      /\ _data img = array /\ _rect img = None /\ _source img = None
      /\ 0 < _width img /\ 0 < _height img
      /\ Z.of_nat (length array) = _width img * _height img * 4
      /\ (Forall byte_range array -> wf img)).
  { intros sw sh Hsw. unfold bind, lift, construct_ImageData.
    destruct global_ImageData; [|discriminate].
    destruct (new_ImageData array sw sh) as [d|e] eqn:Hd; [|discriminate].
    intros _. apply new_ImageData_returns in Hd
      as (Hdata & Hwd & Hpos & Hhpos & _ & Hlen & _); [|done].
    eexists. split; [reflexivity|].
    unfold _data. cbn [_imageData _rect _source _width _height].
    rewrite Hwd, Hdata. repeat split; try done;
      unfold _data; cbn [_imageData _width _height]; by rewrite Hdata. }
  destruct (truthy (rect_width r)), (truthy (rect_height r)); cbn [negb];
    try discriminate; apply Hok; unfold unsigned_long; apply ToUint32_nonneg.
Qed.

Lemma array_construction_witness :
  exists img,
    snd (@new_ImageWrap patched_page blank_dom
           (IsArray (replicate 400 7)) (Some (only_height 10))) = Some img
    /\ _data img = replicate 400 7 /\ _rect img = None.
Proof.
  destruct (@array_construction patched_page blank_dom (replicate 400 7)
              (Some (only_height 10)) eq_refl)
    as (img & Himg & Hd & Hr & _).
  by exists img.
Defined.

(** X13: in a scope that binds neither [Canvas] nor [canvas] -- as when
    the page defines only the platform's names -- no construction succeeds:
    whatever the source, the rectangle and the drawing surface,
    [new ImageWrap] throws, and no field has been assigned. *)
Theorem no_construction_in_bare_scope `{Globals} `{Dom}
    (source : Source) (rect : option Rect) :
  global_Canvas = false -> global_canvas = None ->
  exists e, new_ImageWrap source rect = (Throw e, None).
Proof.
  intros HC Hc. unfold new_ImageWrap, constructor.
  destruct global_Image; cbn [negb]; [|by eexists].
  rewrite HC. cbn [negb].
  destruct source as [image|canvas|array|d|object]; try by eexists.
  unfold fromImage, fromCanvas. rewrite Hc.
  destruct global_document; cbn [negb]; [|by eexists].
  unfold bind, lift, of_host. destruct (drawImage _ _) as [[]|name]; by eexists.
Qed.

Lemma no_construction_in_bare_scope_witness :
  exists e, @new_ImageWrap bare_page blank_dom (IsImage 2%positive) None
            = (Throw e, None).
Proof.
  apply (@no_construction_in_bare_scope bare_page blank_dom
           (IsImage 2%positive) None); reflexivity.
Defined.

(** X14: [fromCanvas] takes from its [source] argument the width and the
    height only; the pixels are read from the outer [canvas].  Two canvases
    of the same size give the same object. *)
Theorem canvas_pixels_come_from_outer_canvas `{Globals} `{Dom}
    (canvas canvas' : Handle) (rect : option Rect) :
  canvas_width canvas = canvas_width canvas' ->
  canvas_height canvas = canvas_height canvas' ->
  new_ImageWrap (IsCanvas canvas) rect = new_ImageWrap (IsCanvas canvas') rect.
Proof.
  intros Hw Hh. unfold new_ImageWrap, constructor, fromCanvas.
  by rewrite Hw, Hh.
Qed.

Lemma canvas_pixels_come_from_outer_canvas_witness :
  @new_ImageWrap page_with_canvas blank_dom (IsCanvas 2%positive) None
  = @new_ImageWrap page_with_canvas blank_dom (IsCanvas 3%positive) None.
Proof.
  apply (@canvas_pixels_come_from_outer_canvas page_with_canvas blank_dom
           2%positive 3%positive None); reflexivity.
Defined.

Section NaNs.
Local Open Scope float_scope.

Lemma Prim2SF_nan : Prim2SF nan = S754_nan.
Proof. reflexivity. Qed.

Lemma is_nan (z : float) : Prim2SF z = S754_nan -> z = nan.
Proof. intros Hz. apply Prim2SF_inj. by rewrite Hz. Qed.

Lemma sub_nan_r (a : float) : a - nan = nan.
Proof.
  apply is_nan. rewrite sub_spec, Prim2SF_nan.
  unfold SF64sub, SFsub. by destruct (Prim2SF a).
Qed.

Lemma add_nan_l (a : float) : nan + a = nan.
Proof. apply is_nan. by rewrite add_spec, Prim2SF_nan. Qed.

Lemma add_nan_r (a : float) : a + nan = nan.
Proof.
  apply is_nan. rewrite add_spec, Prim2SF_nan.
  unfold SF64add, SFadd. by destruct (Prim2SF a).
Qed.

Lemma abs_nan : abs nan = nan.
Proof. reflexivity. Qed.

Lemma ltb_nan_l (a : float) : (nan <? a) = false.
Proof. by rewrite ltb_spec, Prim2SF_nan. Qed.

Lemma ltb_nan_r (a : float) : (a <? nan) = false.
Proof.
  rewrite ltb_spec, Prim2SF_nan. unfold SFltb, SFcompare.
  by destruct (Prim2SF a).
Qed.

(** A sample whose centre pixel has an [undefined] channel has divergence
    NaN, whatever the reference is. *)
Lemma divergence_nan this x y ref :
  elem (_data this) (4 * (y * _width this + x)) = None
  \/ elem (_data this) (4 * (y * _width this + x) + 1) = None
  \/ elem (_data this) (4 * (y * _width this + x) + 2) = None ->
  divergence this x y ref = nan.
Proof.
  destruct ref as [[r g] b]. unfold divergence.
  intros [Hn|[Hn|Hn]]; rewrite Hn; cbn [ToFloat];
    by rewrite sub_nan_r, abs_nan, ?add_nan_r, ?add_nan_l.
Qed.

End NaNs.

Section Results.
Context `{MathLib}.
Local Open Scope float_scope.

Lemma sampled_mono this x y radius seen seen' d :
  incl seen seen' ->
  sampled this x y radius seen d -> sampled this x y radius seen' d.
Proof.
  intros Hsub [->|(theta & Hin & Hout & ->)]; [by left|].
  right. exists theta. auto.
Qed.

Lemma min_fold_sampled this x y radius del l : forall seen st,
  sampled this x y radius seen (finish st) ->
  sampled this x y radius (seen ++ l)
    (finish (fold_left (min_step this x y radius del) l st)).
Proof.
  induction l as [|theta l IH]; intros seen st Hst; cbn [fold_left].
  - by rewrite app_nil_r.
  - replace (seen ++ theta :: l) with ((seen ++ [theta]) ++ l)
      by (by rewrite <- app_assoc).
    apply IH. unfold min_step.
    destruct (outside _ _) eqn:Hout;
      [eapply sampled_mono; [|done]; apply incl_appl, incl_refl|].
    destruct (_ <? _);
      [|eapply sampled_mono; [|done]; apply incl_appl, incl_refl].
    right. exists theta. split; [apply in_or_app; right; by left | done].
Qed.

Lemma max_fold_sampled this x y radius del l : forall seen st,
  sampled this x y radius seen (finish st) ->
  sampled this x y radius (seen ++ l)
    (finish (fold_left (max_step this x y radius del) l st)).
Proof.
  induction l as [|theta l IH]; intros seen st Hst; cbn [fold_left].
  - by rewrite app_nil_r.
  - replace (seen ++ theta :: l) with ((seen ++ [theta]) ++ l)
      by (by rewrite <- app_assoc).
    apply IH. unfold max_step.
    destruct (outside _ _) eqn:Hout;
      [eapply sampled_mono; [|done]; apply incl_appl, incl_refl|].
    destruct (_ <? _);
      [|eapply sampled_mono; [|done]; apply incl_appl, incl_refl].
    right. exists theta. split; [apply in_or_app; right; by left | done].
Qed.

End Results.

(** X15: a search returns either no direction or the cosine and sine of
    one of the loop's angles whose candidate was inside the buffer. *)
Theorem search_result_is_sampled `{MathLib} fuel this x y color radius tests d :
  minGrad fuel this x y color radius tests = Some d
  \/ maxGrad fuel this x y color radius tests = Some d ->
  exists l, angles fuel (2 * Math_PI) (2 * Math_PI / tests) = Some l
            /\ sampled this x y radius l d.
Proof.
  rewrite minGrad_fold, maxGrad_fold.
  destruct (angles fuel _ _) as [l|]; [|by intros [?|?]].
  cbn [fmap option_fmap option_map].
  intros [[= <-]|[= <-]]; exists l; (split; [done|]).
  - apply (min_fold_sampled this x y radius _ l []). by left.
  - apply (max_fold_sampled this x y radius _ l []). by left.
Qed.

Lemma search_result_is_sampled_witness :
  exists l, angles 5 (2 * Math_PI) (2 * Math_PI / 4) = Some l
            /\ @sampled quadrant left_white 1 1 1 l (@toward quadrant (2 * Math_PI)).
Proof.
  apply (@search_result_is_sampled quadrant 5 left_white 1 1 (Some 0) 1 4).
  left. reflexivity.
Defined.

(** X16: when a colour byte of the centre pixel reads [undefined] (the
    centre index is outside the array), the divergence is NaN at every
    sample and both searches return no direction, even if candidates are
    inside the buffer. *)
Theorem undefined_center_gives_no_direction `{MathLib}
    fuel this x y color radius tests l :
  elem (_data this) (4 * (y * _width this + x)) = None
  \/ elem (_data this) (4 * (y * _width this + x) + 1) = None
  \/ elem (_data this) (4 * (y * _width this + x) + 2) = None ->
  angles fuel (2 * Math_PI) (2 * Math_PI / tests) = Some l ->
  minGrad fuel this x y color radius tests = Some unset
  /\ maxGrad fuel this x y color radius tests = Some unset.
Proof.
  intros Hnone Hl. rewrite minGrad_fold, maxGrad_fold, Hl.
  cbn [fmap option_fmap option_map].
  rewrite (divergence_nan _ _ _ _ Hnone).
  by rewrite min_fold_keeps, max_fold_keeps
    by (apply ltb_nan_l || apply ltb_nan_r).
Qed.

Lemma undefined_center_gives_no_direction_witness :
  @outside left_white (@candidate quadrant (-1) 0 1 (2 * Math_PI)) = false
  /\ @minGrad quadrant 5 left_white (-1) 0 (Some 0) 1 4 = Some unset
  /\ @maxGrad quadrant 5 left_white (-1) 0 None 1 4 = Some unset.
Proof.
  split; [reflexivity|]. split.
  - apply (@undefined_center_gives_no_direction quadrant 5 left_white (-1) 0
             (Some 0) 1 4 quarter_turns); [left|]; reflexivity.
  - apply (@undefined_center_gives_no_direction quadrant 5 left_white (-1) 0
             None 1 4 quarter_turns); [left|]; reflexivity.
Defined.

(** X17: on a buffer of bytes [minGrad] and [maxGrad] return the same
    direction for every input: all samples carry the divergence of the
    centre pixel, so the first in-bounds one is both the minimum and the
    maximum. *)
Theorem searches_coincide `{MathLib} fuel this x y color radius tests :
  Forall byte_range (_data this) ->
  minGrad fuel this x y color radius tests
  = maxGrad fuel this x y color radius tests.
Proof.
  intros Hbytes. rewrite minGrad_fold, maxGrad_fold.
  destruct (angles fuel _ _) as [l|]; [|done].
  cbn [fmap option_fmap option_map]. f_equal.
  rewrite Forall_forall in Hbytes.
  assert (Hread : forall k, elem (_data this) k = None
                            \/ exists p, elem (_data this) k = Some p /\ byte_range p).
  { intros k. destruct (elem (_data this) k) as [p|] eqn:Hk; [|by left].
    right. exists p. split; [done|]. apply Hbytes.
    unfold elem in Hk. destruct (decide _); [|done].
    by eapply list_elem_of_lookup_2. }
  set (ind := (4 * (y * _width this + x))%Z).
  destruct (Hread ind) as [H0|(p & Hp & Bp)];
    [|destruct (Hread (ind + 1)%Z) as [H1|(q & Hq & Bq)];
      [|destruct (Hread (ind + 2)%Z) as [H2|(s & Hs & Bs)]]].
  1-3: rewrite divergence_nan by (subst ind; tauto);
       by rewrite min_fold_keeps, max_fold_keeps
         by (apply ltb_nan_l || apply ltb_nan_r).
  assert (Hdel : exists n, (0 <= n <= 765)%Z
            /\ divergence this x y (reference this x y color) = Z2F n).
  { unfold divergence, reference. fold ind.
    destruct color as [c|]; rewrite Hp, Hq, Hs; cbn [ToFloat].
    - eexists. split; [|apply divergence_bytes];
        auto using channel_distance_range, byte_of_band, byte_of_band_low with lia.
    - eexists. split; [|by apply divergence_bytes].
      by apply channel_distance_range. }
  destruct Hdel as (n & Hn & ->).
  destruct (distance_between_sentinels n Hn) as [Hmax Hmin].
  rewrite min_fold_first, max_fold_first by done.
  by destruct (first_inside _ _ _ _ _).
Qed.

Lemma searches_coincide_witness :
  @minGrad quadrant 5 left_white 1 1 None 1 4
  = @maxGrad quadrant 5 left_white 1 1 None 1 4.
Proof.
  apply (@searches_coincide quadrant 5 left_white 1 1 None 1 4).
  apply wf_left_white.
Defined.
